(** * azure-resource-management-scripts: a shallow embedding

    Two independent scripts are embedded here:

    - [filter_user_groups.py]: the CSV row filter ([Module FilterUserGroups]);
    - [list_resource_types.py]: the subscription resolver, the resource lister,
      the aggregator and the report renderer ([Module ListResourceTypes]).

    Python values are modelled as the scripts use them: a [str] is its sequence
    of Unicode code points, a [dict] is an insertion-ordered association list
    (iteration order is observable in both scripts), a [dict] that is only
    looked up is a [gmap], exceptions are an error monad, a [float] is a
    binary64 number of the Standard Library's [SpecFloat]
    ([Module Binary64]). *)

From Stdlib Require Import Ascii String DecimalString.
From stdpp Require Import base decidable option numbers list sorting gmap.
From Stdlib Require Import ZArith Rbase Rfunctions Lra Lia SpecFloat.

Local Open Scope N_scope.
Local Open Scope nat_scope.

(** ** Python strings *)

Module Py.

(** A code point, and a [str] as the sequence of its code points. *)
Abbreviation char := N (only parsing).
Abbreviation str := (list N) (only parsing).

(** A string literal of the source (all of them are ASCII). *)
Definition lit (s : string) : str := N_of_ascii <$> list_ascii_of_string s.

(** [s.startswith(p)]. *)
Fixpoint startswith (p s : str) : bool :=
  match p, s with
  | [], _ => true
  | _ :: _, [] => false
  | a :: p', b :: s' => bool_decide (a = b) && startswith p' s'
  end.

(** [sub in s]: [sub] occurs at some position of [s]. *)
Fixpoint str_in (sub s : str) : bool :=
  startswith sub s ||
  match s with
  | [] => false
  | _ :: s' => str_in sub s'
  end.

(** [s.lstrip(chars)]: drop the leading characters that belong to [chars]. *)
Fixpoint lstrip (chars s : str) : str :=
  match s with
  | [] => []
  | c :: s' => if bool_decide (c ∈ chars) then lstrip chars s' else s
  end.

(** [s.split(sep)] for a separator of one character. The result is never
    empty: [''.split('/') == ['']]. *)
Fixpoint split (sep : char) (s : str) : list str :=
  match s with
  | [] => [[]]
  | c :: s' =>
      if bool_decide (c = sep) then [] :: split sep s'
      else match split sep s' with
           | seg :: segs => (c :: seg) :: segs
           | [] => [[c]]
           end
  end.

(** [sep.join(parts)]. *)
Fixpoint join (sep : str) (parts : list str) : str :=
  match parts with
  | [] => []
  | [p] => p
  | p :: rest => p ++ sep ++ join sep rest
  end.

(** [str(n)] for a non-negative [int]. *)
Definition str_of_nat (n : nat) : str :=
  lit (NilEmpty.string_of_uint (Nat.to_uint n)).

(** [c * n] for a one-character string [c]. *)
Definition repeat_char (c : string) (n : nat) : str :=
  mjoin (replicate n (lit c)).

(** *** Exceptions *)

Inductive exn := AttributeError | ValueError | FileNotFoundError.

Inductive result (A : Type) :=
| Ok (a : A)
| Raise (e : exn).
Arguments Ok {A} a.
Arguments Raise {A} e.

Definition bind {A B} (m : result A) (k : A → result B) : result B :=
  match m with
  | Ok a => k a
  | Raise e => Raise e
  end.

(** A [for] loop whose body may raise: the first exception leaves the loop,
    with the state the body had reached. *)
Fixpoint for_each {S A} (body : S → A → S * option exn) (l : list A) (s : S)
  : S * option exn :=
  match l with
  | [] => (s, None)
  | a :: l' =>
      match body s a with
      | (s', None) => for_each body l' s'
      | (s', Some e) => (s', Some e)
      end
  end.

(** *** Insertion-ordered dictionaries *)

Section odict.
Context {K V : Type} `{EqDecision K}.

(** [d.get(k)]. *)
Fixpoint oget (k : K) (d : list (K * V)) : option V :=
  match d with
  | [] => None
  | (k', v) :: d' => if decide (k = k') then Some v else oget k d'
  end.

(** [d[k] = v]: an existing key keeps its position, a new one goes last. *)
Fixpoint oset (k : K) (v : V) (d : list (K * V)) : list (K * V) :=
  match d with
  | [] => [(k, v)]
  | (k', v') :: d' =>
      if decide (k = k') then (k', v) :: d' else (k', v') :: oset k v d'
  end.

(** [dict(pairs)]. *)
Definition dict_of (pairs : list (K * V)) : list (K * V) :=
  foldl (λ d kv, oset kv.1 kv.2 d) [] pairs.
End odict.

End Py.

Import Py.

(** ** filter_user_groups.py *)

Module FilterUserGroups.

(** The byte-order mark U+FEFF. *)
Definition BOM : char := 65279%N.

Definition exclusion_strings : list str :=
  lit <$> ["DV"; "DEV"; "UAT"; "SB"; "DIT"; "PT"; "SIT"; "Dev"; "UA"; "QA";
           "Test"; "Sandbox"; "SANDBOX"; "SandBox"]%string.

(** A row as [csv.DictReader] yields it. [fields] maps every header name to
    the field read for it, or to [None] (the reader's [restval]) when the
    record was too short. [rest] is the value stored under the reader's
    [restkey] ([None]): the fields of a record longer than the header. *)
Record Row := {
  fields : list (str * option str);
  rest : option (list str)
}.

(** One iteration of [DictReader.__next__] on a non-empty record:
    [dict(zip(fieldnames, row))], then the [restkey]/[restval] completion. *)
Definition make_row (fieldnames record : list str) : Row :=
  let d := dict_of (zip fieldnames (Some <$> record)) in
  let lf := length fieldnames in
  let lr := length record in
  if bool_decide (lf < lr) then
    {| fields := d; rest := Some (drop lf record) |}
  else
    {| fields := foldl (λ d key, oset key None d) d (drop lr fieldnames);
       rest := None |}.

(** [csv.DictReader(infile)] over the records ([csv.reader]'s lists of fields)
    of a file: the first record is the header, empty records are skipped.
    Decoding with [utf-8-sig] has already dropped a byte-order mark at the very
    start of the file, so it never reaches the first header name. *)
Definition DictReader (records : list (list str)) : list Row :=
  match records with
  | [] => []
  | fieldnames :: data =>
      make_row fieldnames <$> filter (λ record, record ≠ []) data
  end.

(** The local variables of the reading loop. [excluded_prints] are the
    [Excluded: ...] lines printed so far. *)
Record loop_state := {
  filtered_data : list Row;
  excluded_count : nat;
  total_count : nat;
  excluded_prints : list str
}.

Definition initial_state : loop_state :=
  {| filtered_data := []; excluded_count := 0; total_count := 0;
     excluded_prints := [] |}.

(** [row.get('Name', '').lstrip(BOM)]. The default is used only when the
    row has no [Name] key; a [Name] that is [None] has no [lstrip]. *)
Definition stripped_name (row : Row) : result str :=
  match oget (lit "Name") (fields row) with
  | None => Ok (lstrip [BOM] [])
  | Some (Some s) => Ok (lstrip [BOM] s)
  | Some None => Raise AttributeError
  end.

(** [any(exclude_str in name for exclude_str in exclusion_strings)]. *)
Definition should_exclude (name : str) : bool :=
  existsb (λ exclude_str, str_in exclude_str name) exclusion_strings.

(** The body of [for row in reader]. *)
Definition loop_body (st : loop_state) (row : Row) : loop_state * option exn :=
  let total_count := S (total_count st) in
  match stripped_name row with
  | Raise e =>
      ({| filtered_data := filtered_data st;
          excluded_count := excluded_count st;
          total_count := total_count;
          excluded_prints := excluded_prints st |}, Some e)
  | Ok name =>
      if negb (should_exclude name) then
        ({| filtered_data := filtered_data st ++ [row];
            excluded_count := excluded_count st;
            total_count := total_count;
            excluded_prints := excluded_prints st |}, None)
      else
        ({| filtered_data := filtered_data st;
            excluded_count := S (excluded_count st);
            total_count := total_count;
            excluded_prints :=
              excluded_prints st ++ [lit "Excluded: " ++ name] |}, None)
  end.

Definition read_loop (rows : list Row) : loop_state * option exn :=
  for_each loop_body rows initial_state.

(** The writer's [fieldnames]. *)
Definition fieldnames : list str := [lit "Name"; lit "Id"].

(** [DictWriter._dict_to_list] with [extrasaction='raise'] and [restval='']:
    a key outside [fieldnames] (the reader's [restkey] included) raises
    [ValueError]; a missing key is written as [''], and so is [None]. *)
Definition dict_to_list (row : Row) : result (list str) :=
  if bool_decide (Forall (λ kv, kv.1 ∈ fieldnames) (fields row) ∧ rest row = None)
  then Ok ((λ key, default [] (mjoin (oget key (fields row)))) <$> fieldnames)
  else Raise ValueError.

(** [writer.writerows(filtered_data)] on a file holding [file]: the records are
    written one by one, so those before a row that raises stay in the file. *)
Fixpoint writerows (rows : list Row) (file : list (list str))
  : list (list str) * option exn :=
  match rows with
  | [] => (file, None)
  | row :: rows' =>
      match dict_to_list row with
      | Ok record => writerows rows' (file ++ [record])
      | Raise e => (file, Some e)
      end
  end.

(** What a run leaves behind: the value returned, the records of the output
    file ([None] when the file was not opened) and the [Excluded: ...] lines. *)
Record outcome := {
  returned : bool;
  output_file : option (list (list str));
  printed : list str
}.

(** The part of [filter_production_groups] after the input file was opened.
    Both [except] clauses return [False]; an exception in the reading loop
    comes before the output file is opened, one in [writerows] after. *)
Definition filter_rows (rows : list Row) : outcome :=
  match read_loop rows with
  | (st, Some _) =>
      {| returned := false; output_file := None;
         printed := excluded_prints st |}
  | (st, None) =>
      match filtered_data st with
      | [] =>
          {| returned := true; output_file := None;
             printed := excluded_prints st |}
      | _ :: _ =>
          match writerows (filtered_data st) [fieldnames] with
          | (file, None) =>
              {| returned := true; output_file := Some file;
                 printed := excluded_prints st |}
          | (file, Some _) =>
              {| returned := false; output_file := Some file;
                 printed := excluded_prints st |}
          end
      end
  end.

(** [filter_production_groups(input_file, output_file)]; [input] is [None]
    when the input file does not exist, and its records otherwise. *)
Definition filter_production_groups (input : option (list (list str))) : outcome :=
  match input with
  | None => {| returned := false; output_file := None; printed := [] |}
  | Some records => filter_rows (DictReader records)
  end.

End FilterUserGroups.

(** ** list_resource_types.py *)

Module ListResourceTypes.

(** *** The remote capabilities the script consumes *)

(** An item of [subscription_client.subscriptions.list()]. *)
Record Subscription := {
  display_name : str;
  subscription_id : str;
  state : str
}.

(** An item of [resource_client.resources.list()]. *)
Record GenericResource := {
  res_type : str;
  res_name : str;
  res_location : str;
  res_id : str
}.

(** The tenant as the script sees it. A listing is [None] when the call (or
    one of its pages) raises. *)
Record Remote := {
  subscriptions_list : option (list Subscription);
  resources_list : str → option (list GenericResource)
}.

(** *** The analyzer *)

Record AzureResourceTypeAnalyzer := {
  target_subscriptions : list str
}.

(** [__init__]: [self.target_subscriptions = target_subscriptions or []]. *)
Definition init (target_subscriptions : option (list str))
  : AzureResourceTypeAnalyzer :=
  {| target_subscriptions :=
       match target_subscriptions with
       | Some (t :: ts) => t :: ts
       | Some [] | None => []
       end |}.

(** The dictionary built by the first loop of [get_subscriptions]: every
    enabled subscription is entered under its display name and under its ID. *)
Definition all_subscriptions (listing : list Subscription) : gmap str str :=
  foldl (λ all subscription,
           if bool_decide (state subscription = lit "Enabled") then
             <[subscription_id subscription := subscription_id subscription]>
               (<[display_name subscription := subscription_id subscription]> all)
           else all)
        ∅ listing.

(** The second loop of [get_subscriptions]. *)
Definition find_targets (all : gmap str str) (targets : list str) : list str :=
  foldl (λ found_subscriptions target_sub,
           match all !! target_sub with
           | Some sub_id => found_subscriptions ++ [sub_id]
           | None => found_subscriptions
           end)
        [] targets.

Definition get_subscriptions (self : AzureResourceTypeAnalyzer) (remote : Remote)
  : list str :=
  match subscriptions_list remote with
  | None => []
  | Some listing =>
      find_targets (all_subscriptions listing) (target_subscriptions self)
  end.

(** A resource as [get_resources_from_subscription] records it. *)
Record Resource := {
  r_type : str;
  r_name : str;
  r_location : str;
  r_resource_group : str;
  r_subscription_id : str
}.

Definition slash : char := 47%N.

(** [id.split('/')[4] if len(id.split('/')) > 4 else 'Unknown']. The index is
    guarded by the length test, so the subscript never raises. *)
Definition resource_group_of (id : str) : str :=
  if bool_decide (4 < length (split slash id))
  then default [] (split slash id !! 4)
  else lit "Unknown".

Definition get_resources_from_subscription (remote : Remote) (subscription_id : str)
  : list Resource :=
  match resources_list remote subscription_id with
  | None => []
  | Some listing =>
      (λ resource,
         {| r_type := res_type resource;
            r_name := res_name resource;
            r_location := res_location resource;
            r_resource_group := resource_group_of (res_id resource);
            r_subscription_id := subscription_id |}) <$> listing
  end.

Definition get_all_resources (self : AzureResourceTypeAnalyzer) (remote : Remote)
  : list Resource :=
  match get_subscriptions self remote with
  | [] => []
  | subscriptions =>
      foldl (λ all_resources subscription_id,
               all_resources ++ get_resources_from_subscription remote subscription_id)
            [] subscriptions
  end.

Definition get_resource_type_descriptions : list (str * str) :=
  (λ kv : string * string, (lit kv.1, lit kv.2)) <$>
  [ ("Microsoft.Compute/virtualMachines", "Virtual machines for running applications and workloads");
    ("Microsoft.Storage/storageAccounts", "Storage accounts for data storage and file sharing");
    ("Microsoft.Web/sites", "App Service web applications and APIs");
    ("Microsoft.Sql/servers", "Azure SQL Database servers");
    ("Microsoft.Sql/servers/databases", "Azure SQL databases");
    ("Microsoft.Network/virtualNetworks", "Virtual networks for network isolation");
    ("Microsoft.Network/networkSecurityGroups", "Network security groups for traffic filtering");
    ("Microsoft.Network/publicIPAddresses", "Public IP addresses for internet connectivity");
    ("Microsoft.Network/loadBalancers", "Load balancers for distributing traffic");
    ("Microsoft.Network/networkInterfaces", "Network interfaces for VM connectivity");
    ("Microsoft.KeyVault/vaults", "Key vaults for secrets and certificate management");
    ("Microsoft.Insights/components", "Application Insights for application monitoring");
    ("Microsoft.Authorization/roleAssignments", "Role assignments for access control");
    ("Microsoft.Resources/resourceGroups", "Resource groups for organizing resources");
    ("Microsoft.ContainerRegistry/registries", "Container registries for Docker images");
    ("Microsoft.ContainerService/managedClusters", "Azure Kubernetes Service clusters");
    ("Microsoft.ServiceBus/namespaces", "Service Bus namespaces for messaging");
    ("Microsoft.EventHub/namespaces", "Event Hub namespaces for event streaming");
    ("Microsoft.Logic/workflows", "Logic Apps for workflow automation");
    ("Microsoft.Web/serverfarms", "App Service plans for hosting web apps");
    ("Microsoft.CognitiveServices/accounts", "Cognitive Services for AI capabilities");
    ("Microsoft.MachineLearningServices/workspaces", "Machine Learning workspaces");
    ("Microsoft.DocumentDB/databaseAccounts", "Cosmos DB database accounts");
    ("Microsoft.Cache/Redis", "Azure Cache for Redis");
    ("Microsoft.ApiManagement/service", "API Management services");
    ("Microsoft.DataFactory/factories", "Data Factory for data integration");
    ("Microsoft.StreamAnalytics/streamingjobs", "Stream Analytics for real-time analytics");
    ("Microsoft.Automation/automationAccounts", "Automation accounts for runbooks");
    ("Microsoft.RecoveryServices/vaults", "Recovery Services vaults for backup");
    ("Microsoft.Network/applicationGateways", "Application gateways for web traffic management");
    ("Microsoft.OperationalInsights/workspaces", "Log Analytics workspaces for monitoring and logging");
    ("Microsoft.Security/automations", "Security Center automation rules");
    ("Microsoft.ManagedIdentity/userAssignedIdentities", "User-assigned managed identities");
    ("Microsoft.AlertsManagement/actionRules", "Action rules for alert management");
    ("Microsoft.Monitor/actionGroups", "Action groups for alert notifications")
  ]%string.

(** *** [collections.Counter] *)

(** [Counter(elems)]: a dictionary from the elements to their number of
    occurrences, in the order in which they were first met. *)
Definition Counter (elems : list str) : list (str * nat) :=
  foldl (λ counts elem, oset elem (S (default 0 (oget elem counts))) counts)
        [] elems.

(** [sorted(items, key=itemgetter(1), reverse=True)]: a stable sort by
    descending count, as an insertion sort from the right. An item goes in
    front of the first one whose count does not exceed its own. *)
Fixpoint insert_desc (x : str * nat) (l : list (str * nat)) : list (str * nat) :=
  match l with
  | [] => [x]
  | y :: l' => if bool_decide (x.2 < y.2) then y :: insert_desc x l' else x :: l
  end.

Definition sorted_desc (items : list (str * nat)) : list (str * nat) :=
  foldr insert_desc [] items.

(** [counter.most_common(n)]: all the items sorted when [n] is [None], and
    [heapq.nlargest(n, items, key=itemgetter(1))], which is
    [sorted(items, key=itemgetter(1), reverse=True)[:n]], otherwise. *)
Definition most_common (n : option nat) (counter : list (str * nat))
  : list (str * nat) :=
  match n with
  | None => sorted_desc counter
  | Some n => take n (sorted_desc counter)
  end.

(** *** The analysis *)

(** The float [round((count / total) * 100, 2)], kept as the expression that
    produces it; [Binary64.float_value] below evaluates it in binary64
    arithmetic. *)
Inductive float_expr :=
| round_percent (count total : nat).

(** The value of [analysis['resource_types'][resource_type]]. *)
Record type_details := {
  count : nat;
  description : str;
  percentage : float_expr
}.

(** The values found in the analysis dictionary. *)
Inductive value :=
| VInt (n : nat)
| VTypes (d : list (str * type_details))
| VCounts (d : list (str * nat))
| VStrs (l : list str).

(** [analysis['resource_types'][resource_type] = details]. *)
Definition set_resource_type (resource_type : str) (details : type_details)
    (analysis : list (str * value)) : list (str * value) :=
  match oget (lit "resource_types") analysis with
  | Some (VTypes d) =>
      oset (lit "resource_types") (VTypes (oset resource_type details d)) analysis
  | _ => analysis
  end.

Definition analyze_resource_types (self : AzureResourceTypeAnalyzer)
    (resources : list Resource) : list (str * value) :=
  match resources with
  | [] =>
      [ (lit "total_resources", VInt 0);
        (lit "resource_types", VTypes []);
        (lit "top_locations", VCounts []);
        (lit "top_resource_groups", VCounts []);
        (lit "subscriptions_scanned", VStrs (target_subscriptions self)) ]
  | _ :: _ =>
      let resource_type_counts := Counter (r_type <$> resources) in
      let location_counts := Counter (r_location <$> resources) in
      let rg_counts := Counter (r_resource_group <$> resources) in
      let subscription_counts := Counter (r_subscription_id <$> resources) in
      let descriptions := get_resource_type_descriptions in
      let analysis :=
        [ (lit "total_resources", VInt (length resources));
          (lit "resource_types", VTypes []);
          (lit "top_locations", VCounts (dict_of (most_common (Some 10) location_counts)));
          (lit "top_resource_groups", VCounts (dict_of (most_common (Some 10) rg_counts)));
          (lit "subscription_distribution", VCounts (dict_of subscription_counts));
          (lit "subscriptions_scanned", VStrs (target_subscriptions self)) ] in
      foldl (λ analysis item,
               set_resource_type item.1
                 {| count := item.2;
                    description :=
                      default (lit "No description available")
                              (oget item.1 descriptions);
                    percentage := round_percent item.2 (length resources) |}
                 analysis)
            analysis (most_common None resource_type_counts)
  end.

(** *** The report *)

Section report.
(** [str(x)] of a float, as an f-string formats it. *)
Variable float_str : float_expr → str.

Definition count_line (item : str * nat) : str :=
  lit "  " ++ item.1 ++ lit ": " ++ str_of_nat item.2 ++ lit " resources".

(** The three lines appended for one resource type. *)
Definition type_lines (item : str * type_details) : list str :=
  [ lit (String "010" "") ++ item.1;
    lit "  Count: " ++ str_of_nat (count item.2) ++ lit " (" ++
      float_str (percentage item.2) ++ lit "%)";
    lit "  Description: " ++ description item.2 ].

(** The list [report] of [generate_report] before it is joined. A subscript
    on a missing key raises [KeyError]: the result is [None] then. *)
Definition report_lines (analysis : list (str * value)) : option (list str) :=
  total ← match oget (lit "total_resources") analysis with
          | Some (VInt n) => Some n | _ => None end;
  types ← match oget (lit "resource_types") analysis with
          | Some (VTypes d) => Some d | _ => None end;
  locations ← match oget (lit "top_locations") analysis with
              | Some (VCounts d) => Some d | _ => None end;
  groups ← match oget (lit "top_resource_groups") analysis with
           | Some (VCounts d) => Some d | _ => None end;
  let scanned := match oget (lit "subscriptions_scanned") analysis with
                 | Some (VStrs l) => l | _ => [] end in
  let distribution := match oget (lit "subscription_distribution") analysis with
                      | Some (VCounts d) => d | _ => [] end in
  Some (
    [ repeat_char "=" 80;
      lit "AZURE RESOURCE TYPE ANALYSIS REPORT";
      lit "TARGET SUBSCRIPTIONS: " ++ join (lit ", ") scanned;
      repeat_char "=" 80;
      lit "Total Resources: " ++ str_of_nat total;
      lit "Unique Resource Types: " ++ str_of_nat (length types);
      [] ] ++
    match distribution with
    | [] => []
    | _ :: _ =>
        [ lit "SUBSCRIPTION DISTRIBUTION:"; repeat_char "-" 30 ] ++
        (count_line <$> distribution) ++ [ [] ]
    end ++
    [ lit "RESOURCE TYPES BY COUNT:"; repeat_char "-" 50 ] ++
    (types ≫= type_lines) ++
    match locations with
    | [] => []
    | _ :: _ =>
        [ lit (String "010" "") ++ repeat_char "=" 50;
          lit "TOP LOCATIONS:"; repeat_char "-" 20 ] ++
        (count_line <$> locations)
    end ++
    match groups with
    | [] => []
    | _ :: _ =>
        [ lit (String "010" "") ++ repeat_char "=" 50;
          lit "TOP RESOURCE GROUPS:"; repeat_char "-" 22 ] ++
        (count_line <$> groups)
    end).

Definition generate_report (analysis : list (str * value)) : option str :=
  join (lit (String "010" "")) <$> report_lines analysis.
End report.

(** *** The entry point *)

Definition main_target_subscriptions : list str :=
  lit <$> ["ESS-PROD-C00-001"; "SLProd"; "SLSharedDR"; "SLSharedProd"]%string.

(** The analysis that [main] hands to [save_results], and [None] when it
    returns before the analysis because no resource was collected. *)
Definition main (remote : Remote) : option (list (str * value)) :=
  let analyzer := init (Some main_target_subscriptions) in
  match get_all_resources analyzer remote with
  | [] => None
  | all_resources => Some (analyze_resource_types analyzer all_resources)
  end.

End ListResourceTypes.

(** ** Python floats *)

(** The percentage of a resource type is a Python [float], an IEEE 754
    binary64 number. Its arithmetic is taken from the Standard Library's
    [SpecFloat], which rounds to nearest, ties to even, as CPython does. *)

Module Binary64.
Import ListResourceTypes.

(** The format of a Python [float]: IEEE 754 binary64. *)
Definition prec : Z := 53.
Definition emax : Z := 1024.

(** [bpow e] is [2 ^ e]. *)
Definition bpow (e : Z) : R := powerRZ 2 e.

(** The real number [m * 2 ^ e]. *)
Definition F2R (m e : Z) : R := (IZR m * bpow e)%R.

(** The value of a float; only finite floats are given one. *)
Definition SF2R (f : spec_float) : R :=
  match f with
  | S754_finite s m e => if s then (- F2R (Zpos m) e)%R else F2R (Zpos m) e
  | _ => 0%R
  end.

(** A float that is neither an infinity nor a NaN. *)
Definition is_finite (f : spec_float) : bool :=
  match f with
  | S754_zero _ | S754_finite _ _ _ => true
  | _ => false
  end.

(** An [int] as an operand of [/]: the integer itself, whatever its size, as
    a mantissa at exponent 0. *)
Definition of_int (a : Z) : spec_float :=
  match a with
  | Z0 => S754_zero false
  | Zpos p => S754_finite false p 0
  | Zneg p => S754_finite true p 0
  end.

(** [a / b] on two [int] with [b] not zero: the quotient, rounded once to a
    float. *)
Definition int_div (a b : Z) : spec_float :=
  SFdiv prec emax (of_int a) (of_int b).

(** The float [100.0], which [* 100] converts the [int] 100 to. *)
Definition hundred : spec_float :=
  Eval vm_compute in binary_normalize prec emax 100 0 false.

(** The integer nearest to [100 * m * 2 ^ e], the even one on a tie. *)
Definition hundredths (m : positive) (e : Z) : Z :=
  match e with
  | Zneg p =>
      let den := (2 ^ Zpos p)%Z in
      let q := (100 * Zpos m / den)%Z in
      let r := (100 * Zpos m mod den)%Z in
      match (2 * r ?= den)%Z with
      | Lt => q
      | Gt => (q + 1)%Z
      | Eq => if Z.even q then q else (q + 1)%Z
      end
  | _ => (100 * Zpos m * 2 ^ e)%Z
  end.

(** [round(x, 2)]: the decimal with two places that is nearest to the exact
    value of [x], the even one on a tie, and then the float nearest to this
    decimal. *)
Definition round2 (x : spec_float) : spec_float :=
  match x with
  | S754_finite s m e =>
      match hundredths m e with
      | Zpos k => SFdiv prec emax (S754_finite s k 0) (S754_finite false 100 0)
      | _ => S754_zero s
      end
  | _ => x
  end.

(** [round((count / total) * 100, 2)] with [total] not zero. *)
Definition percent (count total : Z) : spec_float :=
  round2 (SFmul prec emax (int_div count total) hundred).

(** The float a percentage expression evaluates to; [None] stands for the
    [ZeroDivisionError] of a division by zero. *)
Definition float_value (x : float_expr) : option spec_float :=
  match x with
  | round_percent count total =>
      match total with
      | O => None
      | S _ => Some (percent (Z.of_nat count) (Z.of_nat total))
      end
  end.

(** The sum of a list of real numbers. *)
Definition Rsum (l : list R) : R := foldr Rplus 0%R l.

End Binary64.

(** * Properties *)

(** ** Python strings and dictionaries *)

Module PyFacts.

(** [sub] occurs in [s]. *)
Definition substring (sub s : str) : Prop :=
  ∃ pre post, s = pre ++ sub ++ post.

Lemma startswith_spec (p s : str) :
  startswith p s = true ↔ ∃ post, s = p ++ post.
Proof.
  revert s. induction p as [|a p IH]; intros [|b s]; simpl.
  - split; [by exists [] | done].
  - split; [by exists (b :: s) | done].
  - split; [done | by intros [post ?]].
  - rewrite andb_true_iff, bool_decide_eq_true, IH. split.
    + intros [-> [post ->]]. by exists post.
    + intros [post [= -> ->]]. split; [done | by exists post].
Qed.

Lemma str_in_spec (sub s : str) :
  str_in sub s = true ↔ substring sub s.
Proof.
  unfold substring. induction s as [|c s IH].
  - simpl. rewrite orb_false_r, startswith_spec. split.
    + intros [post ?]. by exists [], post.
    + intros [pre [post H]]. symmetry in H.
      apply app_eq_nil in H as [-> H]. apply app_eq_nil in H as [-> ->].
      by exists [].
  - cbn [str_in]. rewrite orb_true_iff, startswith_spec, IH. split.
    + intros [[post ->] | [pre [post ->]]].
      * by exists [], post.
      * by exists (c :: pre), post.
    + intros [[|c' pre] [post H]].
      * left. by exists post.
      * right. injection H as -> ->. by exists pre, post.
Qed.

#[export] Instance substring_dec (sub s : str) : Decision (substring sub s).
Proof.
  destruct (str_in sub s) eqn:E.
  - left. by apply str_in_spec.
  - right. rewrite <- str_in_spec. by rewrite E.
Defined.

(** [lstrip] removes a run of leading characters of [chars], and all of it. *)
Lemma lstrip_spec (chars s : str) :
  ∃ pre, s = pre ++ lstrip chars s ∧
         Forall (λ c, c ∈ chars) pre ∧
         (∀ c, head (lstrip chars s) = Some c → c ∉ chars).
Proof.
  induction s as [|c s (pre & Hs & Hpre & Hhd)]; simpl.
  - exists []. split_and!; [done | constructor | done].
  - case_bool_decide as Hc.
    + exists (c :: pre). split_and!; [by f_equal/= | by constructor | done].
    + exists []. split_and!; [done | constructor |]. by intros c' [= <-].
Qed.

Lemma lstrip_idemp (chars s : str) :
  lstrip chars (lstrip chars s) = lstrip chars s.
Proof.
  induction s as [|c s IH]; simpl; [done|].
  case_bool_decide as Hc; [done|]. simpl. by rewrite bool_decide_false.
Qed.

(** [split] and [join] are inverse of each other on lists of segments that
    are free of the separator. *)
Lemma split_nonempty (sep : char) (s : str) : split sep s ≠ [].
Proof.
  destruct s as [|c s]; simpl; [done|].
  case_bool_decide; [done|]. by destruct (split sep s).
Qed.

Lemma split_sep_free (sep : char) (s : str) :
  Forall (λ seg, sep ∉ seg) (split sep s).
Proof.
  induction s as [|c s IH]; simpl.
  - constructor; [|done]. by intros ?%elem_of_nil.
  - case_bool_decide as Hc.
    + constructor; [|done]. by intros ?%elem_of_nil.
    + destruct (split sep s) as [|seg segs].
      * constructor; [|done]. intros ?%list_elem_of_singleton. by subst.
      * inversion IH as [|? ? Hseg Hsegs]; subst. constructor; [|done].
        intros [?|?]%elem_of_cons; [by subst | done].
Qed.

Lemma join_split (sep : char) (s : str) : join [sep] (split sep s) = s.
Proof.
  induction s as [|c s IH]; simpl; [done|].
  case_bool_decide as Hc.
  - subst c. pose proof (split_nonempty sep s).
    destruct (split sep s) as [|seg segs]; [done|]. simpl in *. by rewrite IH.
  - pose proof (split_nonempty sep s).
    destruct (split sep s) as [|seg segs]; [done|].
    destruct segs; simpl in *; by rewrite <- IH.
Qed.

Lemma split_sep_free_seg (sep : char) (seg : str) :
  sep ∉ seg → split sep seg = [seg].
Proof.
  induction seg as [|c seg IH]; [done|].
  intros [? ?]%not_elem_of_cons. simpl.
  rewrite bool_decide_false by done. by rewrite IH.
Qed.

Lemma split_app_sep (sep : char) (seg rest : str) :
  sep ∉ seg → split sep (seg ++ sep :: rest) = seg :: split sep rest.
Proof.
  induction seg as [|c seg IH].
  - intros _. simpl. by rewrite bool_decide_true.
  - intros [? ?]%not_elem_of_cons. simpl.
    rewrite bool_decide_false by done. by rewrite IH.
Qed.

Lemma split_join (sep : char) (segs : list str) :
  segs ≠ [] → Forall (λ seg, sep ∉ seg) segs →
  split sep (join [sep] segs) = segs.
Proof.
  intros Hne Hfree. induction Hfree as [|seg segs Hseg Hsegs IH]; [done|].
  clear Hne. destruct segs as [|seg' segs].
  - by apply split_sep_free_seg.
  - change (join [sep] (seg :: seg' :: segs))
      with (seg ++ sep :: join [sep] (seg' :: segs)).
    rewrite split_app_sep by done. by rewrite IH.
Qed.

(** Dictionaries. *)
Section odict_facts.
Context {K V : Type} `{EqDecision K}.
Implicit Types (d : list (K * V)) (k : K) (v : V).

Lemma oget_None k d : oget k d = None ↔ k ∉ d.*1.
Proof.
  induction d as [|[k' v'] d IH]; simpl.
  - split; [|done]. by intros _ ?%elem_of_nil.
  - case_decide as Hk.
    + subst. split; [done|]. intros []. by left.
    + rewrite IH, not_elem_of_cons. tauto.
Qed.

Lemma oget_Some_elem k v d : oget k d = Some v → (k, v) ∈ d.
Proof.
  induction d as [|[k' v'] d IH]; simpl; [done|].
  case_decide; [intros [= ->]; subst; by left | intros ?; right; auto].
Qed.

Lemma oget_elem_NoDup k v d : NoDup d.*1 → (k, v) ∈ d → oget k d = Some v.
Proof.
  induction d as [|[k' v'] d IH]; simpl; [by intros _ ?%elem_of_nil|].
  intros [Hk' Hnd]%NoDup_cons [[= -> ->]|Hin]%elem_of_cons.
  - by rewrite decide_True.
  - rewrite decide_False; [by apply IH|].
    intros ->. apply Hk', list_elem_of_fmap. by exists (k', v).
Qed.

Lemma oset_keys_fresh k v d : k ∉ d.*1 → oset k v d = d ++ [(k, v)].
Proof.
  induction d as [|[k' v'] d IH]; simpl; [done|].
  intros [? ?]%not_elem_of_cons. rewrite decide_False by done.
  by rewrite IH.
Qed.

Lemma oset_keys_present k v d : k ∈ d.*1 → (oset k v d).*1 = d.*1.
Proof.
  induction d as [|[k' v'] d IH]; simpl; [by intros ?%elem_of_nil|].
  intros Hk. case_decide as E; [done|]. simpl. f_equal. apply IH.
  apply elem_of_cons in Hk as [?|?]; done.
Qed.

Lemma oget_oset k k' v d :
  oget k' (oset k v d) = if decide (k' = k) then Some v else oget k' d.
Proof.
  induction d as [|[k0 v0] d IH]; simpl.
  - by repeat case_decide.
  - destruct (decide (k = k0)) as [->|Hk]; simpl.
    + by repeat case_decide.
    + rewrite IH. by repeat case_decide; simplify_eq.
Qed.

(** [dict(pairs)] of pairs with distinct keys is the list of pairs. *)
Lemma dict_of_NoDup (pairs : list (K * V)) :
  NoDup pairs.*1 → dict_of pairs = pairs.
Proof.
  unfold dict_of. intros Hnd.
  enough (∀ acc, NoDup (acc.*1 ++ pairs.*1) →
            foldl (λ d kv, oset kv.1 kv.2 d) acc pairs = acc ++ pairs) as H
    by exact (H [] Hnd).
  clear Hnd. induction pairs as [|[k v] pairs IH]; intros acc Hnd; simpl.
  - by rewrite app_nil_r.
  - rewrite oset_keys_fresh.
    + rewrite IH; [by rewrite <- app_assoc|].
      rewrite fmap_app. simpl. by rewrite <- app_assoc.
    + apply NoDup_app in Hnd as (_ & Hnd & _). intros Hk.
      apply (Hnd k Hk). by left.
Qed.
End odict_facts.

End PyFacts.

(** ** The row filter *)

Module FilterFacts.
Import PyFacts FilterUserGroups.

(** The text of a field of a row: [''] when the row has no such key, or
    [None] under it. *)
Definition text_of (key : str) (row : Row) : str :=
  default [] (mjoin (oget key (fields row))).

(** The row's [Name] is a string, or the row has no [Name] key at all: it is
    not the [None] with which the reader completes a short record. *)
Definition has_name_text (row : Row) : Prop :=
  oget (lit "Name") (fields row) ≠ Some None.

(** No exclusion string occurs in the row's name once its leading byte-order
    marks are dropped. *)
Definition clean (row : Row) : Prop :=
  Forall (λ exclude_str,
            ¬ substring exclude_str (lstrip [BOM] (text_of (lit "Name") row)))
         exclusion_strings.

#[export] Instance clean_dec (row : Row) : Decision (clean row).
Proof. unfold clean. apply _. Defined.

(** The row has no other keys than the writer's two field names. *)
Definition name_id_only (row : Row) : Prop :=
  Forall (λ kv, kv.1 ∈ fieldnames) (fields row) ∧ rest row = None.

(** The record the writer emits for a row. *)
Definition written_record (row : Row) : list str :=
  [text_of (lit "Name") row; text_of (lit "Id") row].

(** The line printed for an excluded row. *)
Definition excluded_line (row : Row) : str :=
  lit "Excluded: " ++ lstrip [BOM] (text_of (lit "Name") row).

Lemma should_exclude_false (name : str) :
  should_exclude name = false ↔
  Forall (λ exclude_str, ¬ substring exclude_str name) exclusion_strings.
Proof.
  unfold should_exclude. generalize exclusion_strings as l.
  induction l as [|e l IH]; simpl.
  - split; [constructor | done].
  - rewrite orb_false_iff, IH, Forall_cons, <- str_in_spec.
    rewrite not_true_iff_false. tauto.
Qed.

Lemma stripped_name_text (row : Row) :
  has_name_text row →
  stripped_name row = Ok (lstrip [BOM] (text_of (lit "Name") row)).
Proof.
  unfold has_name_text, stripped_name, text_of.
  by destruct (oget (lit "Name") (fields row)) as [[s|]|].
Qed.

Lemma stripped_name_None (row : Row) :
  ¬ has_name_text row → stripped_name row = Raise AttributeError.
Proof.
  unfold has_name_text, stripped_name.
  destruct (oget (lit "Name") (fields row)) as [[s|]|]; [| done |];
    intros []; done.
Qed.

Lemma loop_body_text (st : loop_state) (row : Row) :
  has_name_text row →
  loop_body st row =
    if decide (clean row) then
      ({| filtered_data := filtered_data st ++ [row];
          excluded_count := excluded_count st;
          total_count := S (total_count st);
          excluded_prints := excluded_prints st |}, None)
    else
      ({| filtered_data := filtered_data st;
          excluded_count := S (excluded_count st);
          total_count := S (total_count st);
          excluded_prints := excluded_prints st ++ [excluded_line row] |}, None).
Proof.
  intros Hname. unfold loop_body. rewrite (stripped_name_text _ Hname).
  destruct (should_exclude _) eqn:E; simpl.
  - rewrite decide_False; [done|].
    intros Hclean%should_exclude_false. congruence.
  - rewrite decide_True; [done|]. by apply should_exclude_false.
Qed.

(** The reading loop from any state, on rows that all have a name text. *)
Lemma for_each_loop_body (rows : list Row) (st : loop_state) :
  Forall has_name_text rows →
  for_each loop_body rows st =
    ({| filtered_data := filtered_data st ++ filter clean rows;
        excluded_count :=
          excluded_count st + length (filter (λ row, ¬ clean row) rows);
        total_count := total_count st + length rows;
        excluded_prints :=
          excluded_prints st ++
          (excluded_line <$> filter (λ row, ¬ clean row) rows) |}, None).
Proof.
  intros Hrows. revert st.
  induction Hrows as [|row rows Hrow Hrows IH]; intros st; simpl.
  - destruct st. simpl. by rewrite !app_nil_r, !Nat.add_0_r.
  - rewrite (loop_body_text _ _ Hrow).
    destruct (decide (clean row)) as [Hc|Hc].
    + rewrite IH. simpl. rewrite (filter_cons_True _ _ _ Hc).
      rewrite filter_cons_False by (by intros []).
      by rewrite <- app_assoc, Nat.add_succ_r.
    + rewrite IH. simpl. rewrite (filter_cons_False _ _ _ Hc).
      rewrite (filter_cons_True (λ row, ¬ clean row)) by done.
      simpl. by rewrite <- app_assoc, !Nat.add_succ_r.
Qed.

Lemma read_loop_text (rows : list Row) :
  Forall has_name_text rows →
  read_loop rows =
    ({| filtered_data := filter clean rows;
        excluded_count := length (filter (λ row, ¬ clean row) rows);
        total_count := length rows;
        excluded_prints := excluded_line <$> filter (λ row, ¬ clean row) rows |},
     None).
Proof. intros Hrows. unfold read_loop. by rewrite for_each_loop_body. Qed.

Lemma dict_to_list_name_id (row : Row) :
  name_id_only row → dict_to_list row = Ok (written_record row).
Proof.
  intros Hrow. unfold dict_to_list. by rewrite bool_decide_true.
Qed.

Lemma writerows_name_id (rows : list Row) (file : list (list str)) :
  Forall name_id_only rows →
  writerows rows file = (file ++ (written_record <$> rows), None).
Proof.
  intros Hrows. revert file.
  induction Hrows as [|row rows Hrow Hrows IH]; intros file; simpl.
  - by rewrite app_nil_r.
  - rewrite (dict_to_list_name_id _ Hrow), IH. by rewrite <- app_assoc.
Qed.

Lemma filter_all {A} (P : A → Prop) `{∀ x, Decision (P x)} (l : list A) :
  Forall P l → filter P l = l.
Proof.
  induction 1 as [|x l Hx Hl IH]; [done|].
  rewrite filter_cons_True by done. by f_equal.
Qed.

Lemma filter_none {A} (P : A → Prop) `{∀ x, Decision (P x)} (l : list A) :
  Forall P l → filter (λ x, ¬ P x) l = [].
Proof.
  induction 1 as [|x l Hx Hl IH]; [done|].
  rewrite filter_cons_False; [done|]. by intros [].
Qed.

Lemma length_filter_split {A} (P : A → Prop) `{∀ x, Decision (P x)} (l : list A) :
  length (filter (λ x, ¬ P x) l) + length (filter P l) = length l.
Proof.
  induction l as [|x l IH]; [done|].
  destruct (decide (P x)).
  - rewrite (filter_cons_True P), filter_cons_False by tauto.
    simpl. lia.
  - rewrite (filter_cons_False P), filter_cons_True by done.
    simpl. lia.
Qed.

Lemma Forall_filter_sub {A} (P Q : A → Prop) `{∀ x, Decision (P x)} (l : list A) :
  Forall Q l → Forall Q (filter P l).
Proof.
  induction 1 as [|x l Hx Hl IH]; [constructor|].
  destruct (decide (P x)).
  - rewrite filter_cons_True by done. by constructor.
  - by rewrite filter_cons_False.
Qed.

Lemma Forall_filter_self {A} (P : A → Prop) `{∀ x, Decision (P x)} (l : list A) :
  Forall P (filter P l).
Proof.
  induction l as [|x l IH]; [constructor|].
  destruct (decide (P x)).
  - rewrite filter_cons_True by done. by constructor.
  - by rewrite filter_cons_False.
Qed.

(** The scenario of the specification: a [DEV] entry and a [PROD] entry. *)
Definition scenario_records : list (list str) :=
  [ [lit "Name"; lit "Id"];
    [lit "App-DEV-01"; lit "1"];
    [lit "App-PROD-01"; lit "2"] ].

Example scenario_outcome :
  filter_production_groups (Some scenario_records) =
    {| returned := true;
       output_file := Some [ [lit "Name"; lit "Id"]; [lit "App-PROD-01"; lit "2"] ];
       printed := [lit "Excluded: App-DEV-01"] |}.
Proof. by vm_compute. Qed.

(** A name keeps its byte-order marks in the output: they are dropped for the
    match only. *)
Example bom_is_kept_in_output :
  filter_production_groups
    (Some [ [lit "Name"; lit "Id"]; [BOM :: lit "App-PROD-01"; lit "2"] ]) =
    {| returned := true;
       output_file :=
         Some [ [lit "Name"; lit "Id"]; [BOM :: lit "App-PROD-01"; lit "2"] ];
       printed := [] |}.
Proof. by vm_compute. Qed.

(** A column that the writer does not know makes [writerows] raise
    [ValueError] at the first kept row: the header alone is in the file. *)
Example extra_column_fails_the_write :
  filter_production_groups
    (Some [ [lit "Name"; lit "Id"; lit "Note"];
            [lit "App-PROD-01"; lit "2"; lit "x"] ]) =
    {| returned := false;
       output_file := Some [ [lit "Name"; lit "Id"] ];
       printed := [] |}.
Proof. by vm_compute. Qed.

(** C1, as stated for every input, fails on inputs all of whose rows are
    clean. With a third column in the file the loop keeps both rows, yet
    [writerows] raises [ValueError] at the first of them: the run returns
    [False] and the output file holds the header alone. With a short record,
    which the reader completes with [None], [lstrip] raises [AttributeError]:
    the run returns [False] and writes no file, although the row before is
    clean and the short one has no name to match. *)
Lemma clean_rows_are_not_always_written :
  let third_column :=
    [ [lit "Name"; lit "Id"; lit "Note"];
      [lit "App-PROD-01"; lit "1"; lit "x"];
      [lit "App-PROD-02"; lit "2"; lit "y"] ] in
  let short_record :=
    [ [lit "Id"; lit "Name"];
      [lit "1"; lit "App-PROD-01"];
      [lit "42"] ] in
  (Forall clean (DictReader third_column) ∧
   length (DictReader third_column) = 2 ∧
   filter_production_groups (Some third_column) =
     {| returned := false;
        output_file := Some [ [lit "Name"; lit "Id"] ];
        printed := [] |}) ∧
  (Forall clean (DictReader short_record) ∧
   length (DictReader short_record) = 2 ∧
   filter_production_groups (Some short_record) =
     {| returned := false; output_file := None; printed := [] |}).
Proof.
  split_and!; try (by vm_compute); apply (bool_decide_eq_true_1 _); by vm_compute.
Qed.

(** C1. On every list of rows whose [Name] is a text, the reading loop ends
    normally and [filtered_data] is exactly the rows whose name, with its
    leading byte-order marks dropped, contains none of the exclusion strings:
    the very rows of the input, in their order. When these rows have no other
    field than [Name] and [Id], the output file holds the header and one
    record per kept row, with the row's own [Name] and [Id]; it is not
    written when no row is kept. *)
Theorem filter_keeps_exactly_the_clean_rows (rows : list Row) :
  Forall has_name_text rows →
  (∃ st, read_loop rows = (st, None) ∧
         filtered_data st = filter clean rows ∧
         total_count st = length rows ∧
         excluded_count st + length (filtered_data st) = length rows) ∧
  filter clean rows `sublist_of` rows ∧
  (∀ row, row ∈ filter clean rows ↔ row ∈ rows ∧ clean row) ∧
  (Forall name_id_only (filter clean rows) →
   returned (filter_rows rows) = true ∧
   output_file (filter_rows rows) =
     match filter clean rows with
     | [] => None
     | kept => Some (fieldnames :: (written_record <$> kept))
     end).
Proof.
  intros Hrows. split_and!.
  - eexists. split; [by apply read_loop_text|]. simpl. split_and!; [done..|].
    apply length_filter_split.
  - apply sublist_filter.
  - intros row. rewrite list_elem_of_filter. tauto.
  - intros Hkept. unfold filter_rows. rewrite (read_loop_text _ Hrows). simpl.
    destruct (filter clean rows) as [|row kept] eqn:E; [done|].
    by rewrite (writerows_name_id _ _ Hkept).
Qed.

Lemma filter_keeps_exactly_the_clean_rows_witness :
  let rows := DictReader scenario_records in
  Forall has_name_text rows ∧
  filtered_data (read_loop rows).1 = filter clean rows.
Proof.
  intros rows.
  assert (Forall has_name_text rows) as Hrows
    by (repeat constructor; by vm_compute).
  split; [exact Hrows|].
  destruct (filter_keeps_exactly_the_clean_rows rows Hrows)
    as [(st & Hst & Hkept & _) _].
  by rewrite Hst.
Defined.

(** What the reader makes of a record that the writer emitted. *)
Lemma make_row_written (name id : str) :
  make_row fieldnames [name; id] =
    {| fields := [(lit "Name", Some name); (lit "Id", Some id)]; rest := None |}.
Proof. reflexivity. Qed.

Lemma reread_written (row : Row) :
  let row' := make_row fieldnames (written_record row) in
  has_name_text row' ∧ name_id_only row' ∧
  written_record row' = written_record row ∧
  (clean row → clean row').
Proof.
  unfold written_record. rewrite make_row_written. split_and!.
  - by vm_compute.
  - split; [|done]. repeat constructor.
  - reflexivity.
  - done.
Qed.

Lemma DictReader_written (kept : list Row) :
  DictReader (fieldnames :: (written_record <$> kept)) =
    (λ row, make_row fieldnames (written_record row)) <$> kept.
Proof.
  unfold DictReader. rewrite filter_all.
  - by rewrite <- list_fmap_compose.
  - apply Forall_fmap, Forall_true. done.
Qed.

(** A run that has written its output file writes the same records again
    when it is given this file as input, the records being read back as they
    were written. *)
Lemma rereading_the_output_file (rows : list Row) (file : list (list str)) :
  Forall has_name_text rows →
  returned (filter_rows rows) = true →
  output_file (filter_rows rows) = Some file →
  filter_production_groups (Some file) =
    {| returned := true; output_file := Some file; printed := [] |}.
Proof.
  intros Hrows.
  assert (Forall has_name_text (filter clean rows)) as Hkept
    by by apply Forall_filter_sub.
  unfold filter_rows at 1 2.
  rewrite (read_loop_text _ Hrows). simpl.
  pose proof (Forall_filter_self clean rows) as Hclean.
  destruct (filter clean rows) as [|row kept] eqn:E; [done|].
  clear E. assert (row :: kept ≠ []) as Hne by done.
  generalize dependent (row :: kept). clear row kept.
  intros kept Hkept Hclean Hne.
  destruct (writerows kept [fieldnames]) as [written [e|]] eqn:Ew; [done|].
  intros _ [= <-].
  assert (Forall name_id_only kept) as Hwritable.
  { clear -Ew. revert Ew. generalize [fieldnames].
    induction kept as [|r l IH]; intros file; simpl; [constructor|].
    unfold dict_to_list at 1. case_bool_decide as Hr; [|done].
    intros Ew. constructor; [done | by eapply IH]. }
  rewrite (writerows_name_id _ _ Hwritable) in Ew. injection Ew as <-.
  change ([fieldnames] ++ (written_record <$> kept))
    with (fieldnames :: (written_record <$> kept)).
  unfold filter_production_groups. rewrite DictReader_written.
  set (reread := λ row, make_row fieldnames (written_record row)).
  assert (Forall (λ r, has_name_text r ∧ name_id_only r ∧ clean r)
            (reread <$> kept)) as Hre.
  { apply Forall_fmap. eapply Forall_impl; [exact Hclean|].
    intros r Hr. destruct (reread_written r) as (? & ? & _ & Hc). auto. }
  unfold filter_rows. rewrite read_loop_text
    by (eapply Forall_impl; [exact Hre | by intros ? (? & _)]).
  simpl. rewrite filter_none
    by (eapply Forall_impl; [exact Hre | by intros ? (_ & _ & ?)]).
  rewrite filter_all
    by (eapply Forall_impl; [exact Hre | by intros ? (_ & _ & ?)]).
  rewrite writerows_name_id
    by (eapply Forall_impl; [exact Hre | by intros ? (_ & ? & _)]).
  destruct kept as [|row kept]; [done|].
  simpl. do 3 f_equal.
  change (written_record <$> (reread <$> row :: kept) =
          written_record <$> row :: kept).
  rewrite <- list_fmap_compose. apply list_fmap_ext. intros _ r _.
  apply (reread_written r).
Qed.

(** C8. Filtering is idempotent. On rows whose [Name] is a text, the reading
    loop run again on its own [filtered_data] ends normally, keeps every row
    and excludes none: its [filtered_data] is the same list. *)
Theorem filtering_is_idempotent (rows : list Row) :
  Forall has_name_text rows →
  ∃ st st', read_loop rows = (st, None) ∧
            read_loop (filtered_data st) = (st', None) ∧
            filtered_data st' = filtered_data st ∧
            excluded_count st' = 0.
Proof.
  intros Hrows.
  assert (Forall has_name_text (filter clean rows)) as Hkept
    by by apply Forall_filter_sub.
  do 2 eexists. split; [by apply read_loop_text|]. simpl.
  split; [by apply read_loop_text|]. simpl.
  pose proof (Forall_filter_self clean rows) as Hclean.
  split; [by apply filter_all|]. by rewrite filter_none.
Qed.

Lemma filtering_is_idempotent_witness :
  let rows := DictReader scenario_records in
  Forall has_name_text rows ∧
  ∃ st st', read_loop rows = (st, None) ∧
            read_loop (filtered_data st) = (st', None) ∧
            filtered_data st' = filtered_data st ∧
            excluded_count st' = 0.
Proof.
  intros rows.
  assert (Forall has_name_text rows) as Hrows
    by (repeat constructor; by vm_compute).
  split; [exact Hrows|].
  exact (filtering_is_idempotent rows Hrows).
Defined.

(** A header in which [Name] is not the first column, a production entry, and
    a record with a single field. *)
Definition short_record_input : list (list str) :=
  [ [lit "Id"; lit "Name"];
    [lit "1"; lit "App-PROD-01"];
    [lit "42"] ].

(** A row without a [Name] key is given the name [''] and is kept. *)
Lemma row_without_name_key_is_kept (st : loop_state) (row : Row) :
  oget (lit "Name") (fields row) = None →
  loop_body st row =
    ({| filtered_data := filtered_data st ++ [row];
        excluded_count := excluded_count st;
        total_count := S (total_count st);
        excluded_prints := excluded_prints st |}, None).
Proof. intros Hkey. unfold loop_body, stripped_name. by rewrite Hkey. Qed.

(** A single row whose [Name] is [None] makes the whole run fail, wherever it
    stands and whatever the other rows are. *)
Lemma for_each_loop_body_raises (rows : list Row) (st : loop_state) :
  Exists (λ row, ¬ has_name_text row) rows →
  (for_each loop_body rows st).2 = Some AttributeError.
Proof.
  intros Hrows. revert st.
  induction rows as [|row rows IH]; intros st; [by inversion Hrows|].
  simpl. destruct (decide (has_name_text row)) as [Hrow|Hrow].
  - rewrite (loop_body_text _ _ Hrow).
    apply Exists_cons in Hrows as [?|Hrows]; [done|].
    case_decide; by apply IH.
  - unfold loop_body. by rewrite (stripped_name_None _ Hrow).
Qed.

(** The reading loop ends normally exactly on the rows whose [Name] is a
    text: these are the runs that have an output. *)
Lemma read_loop_ends_normally_iff (rows : list Row) :
  (read_loop rows).2 = None ↔ Forall has_name_text rows.
Proof.
  split.
  - intros Hend. destruct (decide (Forall has_name_text rows)) as [|Hbad]; [done|].
    apply not_Forall_Exists in Hbad; [|apply _].
    apply (for_each_loop_body_raises _ initial_state) in Hbad.
    unfold read_loop in Hend. congruence.
  - intros Hrows. by rewrite read_loop_text.
Qed.

Lemma name_none_fails_the_run (rows : list Row) :
  Exists (λ row, ¬ has_name_text row) rows →
  returned (filter_rows rows) = false ∧ output_file (filter_rows rows) = None.
Proof.
  intros Hrows. unfold filter_rows, read_loop.
  pose proof (for_each_loop_body_raises rows initial_state Hrows) as Hraise.
  destruct (for_each loop_body rows initial_state) as [st [e|]]; done.
Qed.

(** C3. The reader completes the short record with [Name = None]; [None] has
    no [lstrip], so the row makes the reading loop raise [AttributeError]:
    the run returns [False] and writes nothing, not even the production entry
    read before. *)
Theorem name_none_aborts_the_run :
  DictReader short_record_input =
    [ {| fields := [(lit "Id", Some (lit "1")); (lit "Name", Some (lit "App-PROD-01"))];
         rest := None |};
      {| fields := [(lit "Id", Some (lit "42")); (lit "Name", None)];
         rest := None |} ] ∧
  (read_loop (DictReader short_record_input)).2 = Some AttributeError ∧
  filter_production_groups (Some short_record_input) =
    {| returned := false; output_file := None; printed := [] |}.
Proof. by vm_compute. Qed.

End FilterFacts.

(** ** The subscription resolver and the resource lister *)

Module ResolverFacts.
Import PyFacts ListResourceTypes.

(** [target] designates the enabled subscription [sub_id] of the listing, by
    its display name or by its ID. *)
Definition matches (listing : list Subscription) (target sub_id : str) : Prop :=
  ∃ subscription,
    subscription ∈ listing ∧
    state subscription = lit "Enabled" ∧
    (display_name subscription = target ∨ subscription_id subscription = target) ∧
    subscription_id subscription = sub_id.

Lemma matches_app (listing listing' : list Subscription) (target sub_id : str) :
  matches (listing ++ listing') target sub_id ↔
  matches listing target sub_id ∨ matches listing' target sub_id.
Proof.
  unfold matches. split.
  - intros (s & [Hs|Hs]%elem_of_app & H); [left | right]; by exists s.
  - intros [(s & Hs & H) | (s & Hs & H)]; exists s;
      (split; [apply elem_of_app; auto | done]).
Qed.

Lemma all_subscriptions_snoc (listing : list Subscription) (s : Subscription) :
  all_subscriptions (listing ++ [s]) =
    if bool_decide (state s = lit "Enabled") then
      <[subscription_id s := subscription_id s]>
        (<[display_name s := subscription_id s]> (all_subscriptions listing))
    else all_subscriptions listing.
Proof. unfold all_subscriptions. by rewrite foldl_snoc. Qed.

(** A key of the dictionary is a match, and every match has a key. *)
Lemma all_subscriptions_lookup (listing : list Subscription) (target : str) :
  match all_subscriptions listing !! target with
  | Some sub_id => matches listing target sub_id
  | None => ∀ sub_id, ¬ matches listing target sub_id
  end.
Proof.
  induction listing as [|s listing IH] using rev_ind.
  - unfold all_subscriptions. simpl. rewrite lookup_empty.
    intros sub_id (s & Hs & _). by apply elem_of_nil in Hs.
  - rewrite all_subscriptions_snoc. case_bool_decide as Hen.
    + destruct (decide (subscription_id s = target)) as [<-|Hid].
      { rewrite lookup_insert_eq.
        apply matches_app. right. exists s.
        split_and!; [by left | done | by right | done]. }
      rewrite lookup_insert_ne by done.
      destruct (decide (display_name s = target)) as [<-|Hdn].
      { rewrite lookup_insert_eq.
        apply matches_app. right. exists s.
        split_and!; [by left | done | by left | done]. }
      rewrite lookup_insert_ne by done.
      destruct (all_subscriptions listing !! target) as [sub_id|].
      * apply matches_app. by left.
      * intros sub_id [H | (s' & Hs' & _ & Hor & _)]%matches_app.
        -- by apply (IH sub_id).
        -- apply list_elem_of_singleton in Hs'. subst s'. by destruct Hor.
    + destruct (all_subscriptions listing !! target) as [sub_id|].
      * apply matches_app. by left.
      * intros sub_id [H | (s' & Hs' & Hst & _)]%matches_app.
        -- by apply (IH sub_id).
        -- apply list_elem_of_singleton in Hs'. by subst s'.
Qed.

(** The second loop appends, in the order of the targets, the IDs found. *)
Lemma find_targets_omap (all : gmap str str) (targets : list str) :
  find_targets all targets = omap (λ target, all !! target) targets.
Proof.
  unfold find_targets.
  enough (∀ found,
            foldl (λ found target,
                     match all !! target with
                     | Some sub_id => found ++ [sub_id]
                     | None => found
                     end) found targets
            = found ++ omap (λ target, all !! target) targets) as H
    by exact (H []).
  induction targets as [|t targets IH]; intros found; simpl.
  - by rewrite app_nil_r.
  - rewrite IH. destruct (all !! t); [by rewrite <- app_assoc | done].
Qed.

(** A listing call that raises resolves nothing. *)
Lemma get_subscriptions_listing_failed (self : AzureResourceTypeAnalyzer)
    (resources_list : str → option (list GenericResource)) :
  get_subscriptions self
    {| subscriptions_list := None; resources_list := resources_list |} = [].
Proof. reflexivity. Qed.

(** C6. The resolver returns, in the order of the target list, one ID per
    target that designates an enabled subscription by its display name or by
    its ID; a target that designates none is skipped. So every ID returned
    is the ID of a subscription whose state is [Enabled]. *)
Theorem get_subscriptions_resolves_enabled_targets_in_order
    (self : AzureResourceTypeAnalyzer) (listing : list Subscription)
    (resources_list : str → option (list GenericResource)) :
  ∃ resolve : str → option str,
    get_subscriptions self
      {| subscriptions_list := Some listing; resources_list := resources_list |}
      = omap resolve (target_subscriptions self) ∧
    (∀ target sub_id, resolve target = Some sub_id → matches listing target sub_id) ∧
    (∀ target, resolve target = None → ∀ sub_id, ¬ matches listing target sub_id) ∧
    (∀ sub_id,
       sub_id ∈ omap resolve (target_subscriptions self) →
       ∃ subscription, subscription ∈ listing ∧
                       state subscription = lit "Enabled" ∧
                       subscription_id subscription = sub_id).
Proof.
  exists (λ target, all_subscriptions listing !! target).
  assert (∀ target sub_id,
            all_subscriptions listing !! target = Some sub_id →
            matches listing target sub_id) as Hsome.
  { intros target sub_id H. pose proof (all_subscriptions_lookup listing target).
    by rewrite H in *. }
  split_and!.
  - unfold get_subscriptions. simpl. apply find_targets_omap.
  - exact Hsome.
  - intros target H. pose proof (all_subscriptions_lookup listing target).
    by rewrite H in *.
  - intros sub_id (target & _ & H)%list_elem_of_omap.
    destruct (Hsome _ _ H) as (s & ? & ? & _ & ?). by exists s.
Qed.

(** A disabled subscription is not resolved, whether the target names it or
    gives its ID; an unknown target is skipped; the order is the targets'. *)
Example resolver_scenario :
  get_subscriptions
    (init (Some [lit "Beta"; lit "nowhere"; lit "id-3"; lit "id-2"; lit "Alpha"]))
    {| subscriptions_list :=
         Some [ {| display_name := lit "Alpha"; subscription_id := lit "id-1";
                   state := lit "Enabled" |};
                {| display_name := lit "Beta"; subscription_id := lit "id-2";
                   state := lit "Disabled" |};
                {| display_name := lit "Gamma"; subscription_id := lit "id-3";
                   state := lit "Enabled" |} ];
       resources_list := λ _, None |}
  = [lit "id-3"; lit "id-1"].
Proof. by vm_compute. Qed.

Lemma resource_group_of_lookup (id : str) :
  resource_group_of id = default (lit "Unknown") (split slash id !! 4).
Proof.
  unfold resource_group_of. case_bool_decide as Hlen.
  - by destruct (lookup_lt_is_Some_2 _ _ Hlen) as [g ->].
  - rewrite lookup_ge_None_2; [done | lia].
Qed.

(** C7. [split] cuts the identifier at every ["/"]: its segments are free of
    ["/"] and joined by ["/"] they give the identifier back. The resource
    group is the segment at index 4, and ["Unknown"] when there are fewer
    than 5 segments. *)
Theorem resource_group_is_segment_4 (id : str) :
  join [slash] (split slash id) = id ∧
  Forall (λ segment, slash ∉ segment) (split slash id) ∧
  resource_group_of id = default (lit "Unknown") (split slash id !! 4) ∧
  (length (split slash id) < 5 ↔ split slash id !! 4 = None).
Proof.
  split_and!.
  - apply join_split.
  - apply split_sep_free.
  - apply resource_group_of_lookup.
  - rewrite lookup_ge_None. lia.
Qed.

(** The same on the segments: an identifier made of at least 5 segments has
    its fifth as resource group, a shorter one has ["Unknown"]. *)
Lemma resource_group_of_join (segments : list str) :
  segments ≠ [] → Forall (λ segment, slash ∉ segment) segments →
  resource_group_of (join [slash] segments) =
    default (lit "Unknown") (segments !! 4).
Proof.
  intros Hne Hfree. by rewrite resource_group_of_lookup, split_join.
Qed.

Example resource_group_scenario :
  resource_group_of (lit "/subscriptions/x/resourceGroups/rg1/providers/p/t/n")
    = lit "rg1" ∧
  resource_group_of (lit "/subscriptions/x/resourceGroups") = lit "Unknown" ∧
  resource_group_of (lit "") = lit "Unknown".
Proof. by vm_compute. Qed.

End ResolverFacts.

(** ** The aggregator *)

Module AggregatorFacts.
Import PyFacts ListResourceTypes.

(** The number of occurrences of [k] in [elems]. *)
Definition occurrences (k : str) (elems : list str) : nat :=
  length (filter (λ elem, elem = k) elems).

(** [k1] is met in [elems] before [k2] is: some prefix of [elems] holds [k1]
    and not [k2]. *)
Definition met_before (elems : list str) (k1 k2 : str) : Prop :=
  ∃ pre suf, elems = pre ++ suf ∧ k1 ∈ pre ∧ k2 ∉ pre.

(** The items are in the order of a ranking of [elems]: counts never
    increase, and of two items with the same count the one whose key was met
    first comes first. *)
Definition in_rank_order (elems : list str) (d : list (str * nat)) : Prop :=
  ∀ i j x y, d !! i = Some x → d !! j = Some y → i < j →
             y.2 ≤ x.2 ∧ (x.2 = y.2 → met_before elems x.1 y.1).

(** [d] is the ranking of [elems]: one item per distinct element, with its
    number of occurrences, in rank order. *)
Definition ranking (elems : list str) (d : list (str * nat)) : Prop :=
  NoDup d.*1 ∧
  (∀ k c, (k, c) ∈ d ↔ k ∈ elems ∧ c = occurrences k elems) ∧
  in_rank_order elems d.

(** The key [k1] comes before the key [k2] in the dictionary [c]. *)
Definition key_before (c : list (str * nat)) (k1 k2 : str) : Prop :=
  ∃ i j, i < j ∧ c.*1 !! i = Some k1 ∧ c.*1 !! j = Some k2.

(** The order a stable sort by descending count gives to the items of [c]. *)
Definition stable_before (c : list (str * nat)) (x y : str * nat) : Prop :=
  y.2 < x.2 ∨ (x.2 = y.2 ∧ key_before c x.1 y.1).

Lemma occurrences_snoc (k x : str) (elems : list str) :
  occurrences k (elems ++ [x]) =
    if decide (x = k) then S (occurrences k elems) else occurrences k elems.
Proof.
  unfold occurrences. rewrite filter_app, length_app.
  case_decide.
  - rewrite filter_cons_True by done. simpl. lia.
  - rewrite filter_cons_False by done. simpl. lia.
Qed.

Lemma occurrences_0 (k : str) (elems : list str) :
  k ∉ elems → occurrences k elems = 0.
Proof.
  intros Hk. unfold occurrences.
  induction elems as [|x elems IH]; [done|].
  apply not_elem_of_cons in Hk as [? ?].
  rewrite filter_cons_False by done. auto.
Qed.

Lemma met_before_snoc (elems : list str) (x k1 k2 : str) :
  met_before elems k1 k2 → met_before (elems ++ [x]) k1 k2.
Proof.
  intros (pre & suf & -> & ? & ?). exists pre, (suf ++ [x]).
  by rewrite app_assoc.
Qed.

(** *** [Counter] *)

Lemma Counter_snoc (elems : list str) (x : str) :
  Counter (elems ++ [x]) =
    oset x (S (default 0 (oget x (Counter elems)))) (Counter elems).
Proof. unfold Counter. by rewrite foldl_snoc. Qed.

Lemma Counter_oget (elems : list str) (k : str) :
  oget k (Counter elems) =
    if decide (k ∈ elems) then Some (occurrences k elems) else None.
Proof.
  induction elems as [|x elems IH] using rev_ind.
  - rewrite decide_False; [done|]. by intros ?%elem_of_nil.
  - rewrite Counter_snoc, oget_oset, occurrences_snoc.
    destruct (decide (k = x)) as [->|Hk].
    + rewrite decide_True by (apply elem_of_app; right; by left).
      rewrite decide_True by done. f_equal. f_equal.
      rewrite IH. case_decide; [done|]. by rewrite occurrences_0.
    + rewrite IH, (decide_False (P := x = k)) by done.
      destruct (decide (k ∈ elems)) as [Hin|Hin].
      * rewrite decide_True; [done|]. apply elem_of_app. by left.
      * rewrite decide_False; [done|].
        intros [?|Hx%list_elem_of_singleton]%elem_of_app; done.
Qed.

Lemma Counter_keys (elems : list str) (k : str) :
  k ∈ (Counter elems).*1 ↔ k ∈ elems.
Proof.
  pose proof (oget_None k (Counter elems)) as Hnone.
  rewrite Counter_oget in Hnone. case_decide.
  - split; [done|]. intros _. destruct (decide (k ∈ (Counter elems).*1)); [done|].
    by apply Hnone in n.
  - split; [|done]. intros Hk. by apply Hnone in Hk.
Qed.

Lemma Counter_keys_1 (elems : list str) (k : str) :
  k ∈ (Counter elems).*1 → k ∈ elems.
Proof. apply Counter_keys. Qed.

Lemma Counter_keys_2 (elems : list str) (k : str) :
  k ∈ elems → k ∈ (Counter elems).*1.
Proof. apply Counter_keys. Qed.

Lemma Counter_keys_snoc (elems : list str) (x : str) :
  (Counter (elems ++ [x])).*1 =
    if decide (x ∈ elems) then (Counter elems).*1 else (Counter elems).*1 ++ [x].
Proof.
  rewrite Counter_snoc. case_decide as Hx.
  - apply oset_keys_present. by apply Counter_keys_2.
  - rewrite oset_keys_fresh by (by intros ?%Counter_keys_1).
    by rewrite fmap_app.
Qed.

Lemma Counter_NoDup (elems : list str) : NoDup (Counter elems).*1.
Proof.
  induction elems as [|x elems IH] using rev_ind; [constructor|].
  rewrite Counter_keys_snoc. case_decide as Hx; [done|].
  apply NoDup_app. split_and!; [done | | apply NoDup_singleton].
  intros k Hk%Counter_keys_1 Hkx%list_elem_of_singleton. by subst.
Qed.

(** The keys of a [Counter] are in the order in which they were first met. *)
Lemma Counter_key_order (elems : list str) (k1 k2 : str) :
  key_before (Counter elems) k1 k2 → met_before elems k1 k2.
Proof.
  unfold key_before. induction elems as [|x elems IH] using rev_ind.
  - by intros (i & j & _ & ? & _).
  - rewrite Counter_keys_snoc. case_decide as Hx.
    + intros H. by apply met_before_snoc, IH.
    + intros (i & j & Hij & Hi & Hj).
      destruct (decide (j < length (Counter elems).*1)) as [Hlt|Hge].
      * rewrite lookup_app_l in Hi, Hj by lia.
        apply met_before_snoc, IH. by exists i, j.
      * rewrite lookup_app_r in Hj by lia.
        apply list_lookup_singleton_Some in Hj as [Hj <-].
        rewrite lookup_app_l in Hi by lia.
        exists elems, [x]. split_and!; [done | | done].
        apply Counter_keys_1. by eapply list_elem_of_lookup_2.
Qed.

Lemma Counter_elem (elems : list str) (k : str) (c : nat) :
  (k, c) ∈ Counter elems ↔ k ∈ elems ∧ c = occurrences k elems.
Proof.
  pose proof (Counter_oget elems k) as Hget. split.
  - intros Hkc.
    assert (k ∈ elems) as Hk
      by (apply Counter_keys_1, list_elem_of_fmap; by exists (k, c)).
    split; [done|]. rewrite decide_True in Hget by done.
    apply (oget_elem_NoDup _ _ _ (Counter_NoDup elems)) in Hkc. congruence.
  - intros [Hk ->]. rewrite decide_True in Hget by done.
    by apply oget_Some_elem.
Qed.

(** *** The stable sort by descending count *)

Lemma insert_desc_perm (x : str * nat) (l : list (str * nat)) :
  insert_desc x l ≡ₚ x :: l.
Proof.
  induction l as [|y l IH]; simpl; [done|].
  case_bool_decide; [|done]. rewrite IH. apply Permutation_swap.
Qed.

Lemma sorted_desc_perm (items : list (str * nat)) :
  sorted_desc items ≡ₚ items.
Proof.
  induction items as [|x items IH]; simpl; [done|].
  by rewrite insert_desc_perm, IH.
Qed.

Lemma StronglySorted_mono {A} (R R' : A → A → Prop) (l : list A) :
  (∀ x y, R x y → R' x y) → StronglySorted R l → StronglySorted R' l.
Proof.
  intros HR. induction 1 as [|x l Hl IH Hx]; constructor; [done|].
  eapply Forall_impl; [exact Hx | auto].
Qed.

Lemma StronglySorted_lookup {A} (R : A → A → Prop) (l : list A) i j x y :
  StronglySorted R l → l !! i = Some x → l !! j = Some y → i < j → R x y.
Proof.
  intros Hl. revert i j. induction Hl as [|z l Hl IH Hz]; intros i j; [done|].
  destruct i as [|i], j as [|j]; simpl; try lia.
  - intros [= ->] Hy _. rewrite Forall_forall in Hz.
    apply Hz. by eapply list_elem_of_lookup_2.
  - intros Hx Hy Hij. apply (IH i j); [done..|lia].
Qed.

(** Inserting into a sorted list keeps it sorted, for any order [R] that
    agrees with the counts the way [insert_desc] needs it. *)
Lemma insert_desc_sorted (R : str * nat → str * nat → Prop)
    (x : str * nat) (l : list (str * nat)) :
  (∀ y z, R y z → z.2 ≤ y.2) →
  (∀ y, y ∈ l → x.2 < y.2 → R y x) →
  (∀ y, y ∈ l → y.2 ≤ x.2 → R x y) →
  StronglySorted R l → StronglySorted R (insert_desc x l).
Proof.
  intros Hge Hbefore Hafter Hl.
  induction Hl as [|y l Hl IH Hy]; simpl.
  - repeat constructor.
  - case_bool_decide as Hxy.
    + constructor.
      * apply IH; intros z Hz; [apply Hbefore | apply Hafter]; by right.
      * rewrite insert_desc_perm. constructor; [|done].
        apply Hbefore; [by left | done].
    + constructor; [by constructor|].
      constructor; [apply Hafter; [by left | lia]|].
      rewrite Forall_forall in Hy |- *. intros z Hz.
      apply Hafter; [by right|]. specialize (Hge _ _ (Hy z Hz)). lia.
Qed.

Lemma key_before_cons (x : str * nat) (c : list (str * nat)) (k1 k2 : str) :
  key_before c k1 k2 → key_before (x :: c) k1 k2.
Proof. intros (i & j & ? & ? & ?). exists (S i), (S j). split; [lia | done]. Qed.

Lemma key_before_head (x y : str * nat) (c : list (str * nat)) :
  y ∈ c → key_before (x :: c) x.1 y.1.
Proof.
  intros (j & Hj)%list_elem_of_lookup_1. exists 0, (S j).
  split_and!; [lia | done |]. simpl. by rewrite list_lookup_fmap, Hj.
Qed.

(** [sorted_desc] sorts by descending count and is stable. *)
Lemma sorted_desc_stable (c : list (str * nat)) :
  StronglySorted (stable_before c) (sorted_desc c).
Proof.
  induction c as [|x c IH]; simpl; [constructor|].
  apply insert_desc_sorted.
  - intros y z [?|[? _]]; lia.
  - intros y _ Hlt. by left.
  - intros y Hy Hle. rewrite sorted_desc_perm in Hy.
    destruct (decide (y.2 = x.2)) as [Heq|Hne]; [|left; lia].
    right. split; [done|]. by apply key_before_head.
  - eapply StronglySorted_mono; [|exact IH].
    intros y z [?|[? ?]]; [by left|]. right. split; [done|].
    by apply key_before_cons.
Qed.

(** The sorted items of a [Counter] are the ranking of the elements. *)
Lemma sorted_Counter_ranking (elems : list str) :
  ranking elems (sorted_desc (Counter elems)).
Proof.
  split_and!.
  - rewrite sorted_desc_perm. apply Counter_NoDup.
  - intros k c. rewrite <- Counter_elem. by rewrite sorted_desc_perm.
  - intros i j x y Hx Hy Hij.
    pose proof (StronglySorted_lookup _ _ _ _ _ _
                  (sorted_desc_stable (Counter elems)) Hx Hy Hij) as [Hlt|[Heq Hkey]].
    + split; lia.
    + split; [lia|]. intros _. by apply Counter_key_order.
Qed.

Lemma in_rank_order_take (n : nat) (elems : list str) (d : list (str * nat)) :
  in_rank_order elems d → in_rank_order elems (take n d).
Proof.
  intros Hd i j x y Hx Hy Hij.
  apply lookup_take_Some in Hx as [Hx _], Hy as [Hy _]. by eapply Hd.
Qed.

(** [most_common(n)] gives the first [n] items of the ranking, and the
    dictionary made of them is these items. *)
Lemma most_common_take (n : nat) (elems : list str) :
  dict_of (most_common (Some n) (Counter elems)) =
    take n (sorted_desc (Counter elems)).
Proof.
  unfold most_common. apply dict_of_NoDup. rewrite fmap_take.
  eapply sublist_NoDup; [|apply sublist_take].
  rewrite sorted_desc_perm. apply Counter_NoDup.
Qed.

(** *** The shape of the analysis *)

(** The details recorded for an item of [resource_type_counts.most_common()]. *)
Definition details_of (total : nat) (item : str * nat) : type_details :=
  {| count := item.2;
     description := default (lit "No description available")
                            (oget item.1 get_resource_type_descriptions);
     percentage := round_percent item.2 total |}.

(** The analysis dictionary of a non-empty resource list, with given values. *)
Definition analysis_of (total types locations groups distribution scanned : value)
  : list (str * value) :=
  [ (lit "total_resources", total);
    (lit "resource_types", types);
    (lit "top_locations", locations);
    (lit "top_resource_groups", groups);
    (lit "subscription_distribution", distribution);
    (lit "subscriptions_scanned", scanned) ].

Lemma set_resource_type_analysis_of resource_type details d
    total locations groups distribution scanned :
  set_resource_type resource_type details
    (analysis_of total (VTypes d) locations groups distribution scanned) =
  analysis_of total (VTypes (oset resource_type details d))
              locations groups distribution scanned.
Proof. reflexivity. Qed.

Lemma fill_resource_types (f : str * nat → type_details) (items : list (str * nat))
    d total locations groups distribution scanned :
  foldl (λ analysis item, set_resource_type item.1 (f item) analysis)
        (analysis_of total (VTypes d) locations groups distribution scanned)
        items =
  analysis_of total
    (VTypes (foldl (λ d item, oset item.1 (f item) d) d items))
    locations groups distribution scanned.
Proof.
  revert d. induction items as [|item items IH]; intros d; simpl; [done|].
  by rewrite set_resource_type_analysis_of, IH.
Qed.

Lemma fill_types_NoDup (f : str * nat → type_details) (items : list (str * nat)) :
  NoDup items.*1 →
  foldl (λ d item, oset item.1 (f item) d) [] items =
    (λ item, (item.1, f item)) <$> items.
Proof.
  intros Hnd.
  rewrite <- (dict_of_NoDup ((λ item, (item.1, f item)) <$> items)).
  - unfold dict_of. by rewrite foldl_fmap.
  - by rewrite <- list_fmap_compose.
Qed.

(** The analysis of a non-empty resource list, in closed form. *)
Lemma analyze_nonempty (self : AzureResourceTypeAnalyzer)
    (resources : list Resource) :
  resources ≠ [] →
  analyze_resource_types self resources =
    analysis_of
      (VInt (length resources))
      (VTypes ((λ item, (item.1, details_of (length resources) item)) <$>
               sorted_desc (Counter (r_type <$> resources))))
      (VCounts (take 10 (sorted_desc (Counter (r_location <$> resources)))))
      (VCounts (take 10 (sorted_desc (Counter (r_resource_group <$> resources)))))
      (VCounts (Counter (r_subscription_id <$> resources)))
      (VStrs (target_subscriptions self)).
Proof.
  intros Hne. destruct resources as [|resource resources]; [done|].
  unfold analyze_resource_types.
  rewrite !most_common_take, (dict_of_NoDup (Counter _)) by apply Counter_NoDup.
  set (total := length (resource :: resources)).
  etransitivity; [apply (fill_resource_types (details_of total))|].
  unfold most_common. rewrite fill_types_NoDup; [done|].
  rewrite sorted_desc_perm. apply Counter_NoDup.
Qed.

Lemma analyze_empty (self : AzureResourceTypeAnalyzer) :
  analyze_resource_types self [] =
    [ (lit "total_resources", VInt 0);
      (lit "resource_types", VTypes []);
      (lit "top_locations", VCounts []);
      (lit "top_resource_groups", VCounts []);
      (lit "subscriptions_scanned", VStrs (target_subscriptions self)) ].
Proof. reflexivity. Qed.

(** The keys of the analysis of a non-empty list, and those of the empty one. *)
Definition six_keys : list str :=
  lit <$> ["total_resources"; "resource_types"; "top_locations";
           "top_resource_groups"; "subscription_distribution";
           "subscriptions_scanned"]%string.

Definition five_keys : list str :=
  lit <$> ["total_resources"; "resource_types"; "top_locations";
           "top_resource_groups"; "subscriptions_scanned"]%string.

(** C2, as stated, fails on the empty list: its analysis has five keys, and
    [subscription_distribution] is not one of them. *)
Lemma empty_analysis_has_five_keys :
  (analyze_resource_types (init (Some main_target_subscriptions)) []).*1
    = five_keys ∧
  (lit "subscription_distribution" ∉
     (analyze_resource_types (init (Some main_target_subscriptions)) []).*1) ∧
  (analyze_resource_types (init (Some main_target_subscriptions)) []).*1
    ≠ six_keys.
Proof.
  split_and!; [done | | done].
  intros Hin.
  repeat (apply elem_of_cons in Hin as [Hin|Hin]; [done|]).
  by apply elem_of_nil in Hin.
Qed.

(** C2, amended. The analysis of a non-empty resource list has exactly the
    six keys, in this order; the analysis of the empty list is the zero-valued
    one, with all of them but [subscription_distribution]. The analysis that
    [main] saves is always one of a non-empty list. *)
Theorem analysis_keys (self : AzureResourceTypeAnalyzer)
    (resources : list Resource) :
  (analyze_resource_types self resources).*1 =
    match resources with
    | [] => five_keys
    | _ :: _ => six_keys
    end ∧
  ∀ remote analysis, main remote = Some analysis → analysis.*1 = six_keys.
Proof.
  split.
  - destruct resources as [|resource resources]; [done|].
    by rewrite analyze_nonempty.
  - intros remote analysis. unfold main.
    destruct (get_all_resources _ remote) as [|found all_found]; [done|].
    intros Ha. apply (inj Some) in Ha. subst analysis.
    by rewrite analyze_nonempty.
Qed.

(** C9. Whatever the resources are, [subscriptions_scanned] is the list the
    analyzer was configured with ([[]] when it was given none): what the
    resolver found plays no part in it. *)
Theorem subscriptions_scanned_is_the_configured_list
    (configured : option (list str)) (resources : list Resource) :
  target_subscriptions (init configured) = default [] configured ∧
  oget (lit "subscriptions_scanned")
       (analyze_resource_types (init configured) resources)
    = Some (VStrs (default [] configured)) ∧
  ∀ remote analysis,
    main remote = Some analysis →
    oget (lit "subscriptions_scanned") analysis
      = Some (VStrs main_target_subscriptions).
Proof.
  assert (target_subscriptions (init configured) = default [] configured) as Hinit
    by by destruct configured as [[|t ts]|].
  split_and!; [done | |].
  - rewrite <- Hinit. destruct resources as [|resource resources]; [done|].
    by rewrite analyze_nonempty.
  - intros remote analysis. unfold main.
    destruct (get_all_resources _ remote) as [|found all_found]; [done|].
    intros Ha. apply (inj Some) in Ha. subst analysis.
    by rewrite analyze_nonempty.
Qed.

(** A target that is not resolved, and one that is disabled, are still in
    [subscriptions_scanned]; the resolver returned the first target only. *)
Example scanned_lists_unresolved_targets :
  let analyzer := init (Some [lit "Alpha"; lit "Beta"; lit "nowhere"]) in
  let remote :=
    {| subscriptions_list :=
         Some [ {| display_name := lit "Alpha"; subscription_id := lit "id-1";
                   state := lit "Enabled" |};
                {| display_name := lit "Beta"; subscription_id := lit "id-2";
                   state := lit "Disabled" |} ];
       resources_list := λ subscription_id,
         Some [ {| res_type := lit "Microsoft.Web/sites"; res_name := lit "site";
                   res_location := lit "westeurope";
                   res_id := lit "/subscriptions/id-1/resourceGroups/rg1/providers/Microsoft.Web/sites/site" |} ] |} in
  get_subscriptions analyzer remote = [lit "id-1"] ∧
  oget (lit "subscriptions_scanned")
       (analyze_resource_types analyzer (get_all_resources analyzer remote))
    = Some (VStrs [lit "Alpha"; lit "Beta"; lit "nowhere"]).
Proof. by vm_compute. Qed.

(** *** The top-N mappings and the resource types *)

(** [d] holds the first [n] items of the ranking of [elems]. *)
Definition top_of (n : nat) (elems : list str) (d : list (str * nat)) : Prop :=
  length d ≤ n ∧
  in_rank_order elems d ∧
  ∃ full, ranking elems full ∧ d = take n full.

Lemma take_sorted_Counter_top (n : nat) (elems : list str) :
  top_of n elems (take n (sorted_desc (Counter elems))).
Proof.
  pose proof (sorted_Counter_ranking elems) as Hfull. split_and!.
  - rewrite length_take. lia.
  - apply in_rank_order_take, Hfull.
  - by eexists.
Qed.

(** C5. [top_locations] and [top_resource_groups] have at most 10 entries
    each. Their counts never increase along the mapping, and of two entries
    with the same count the one met first in the resource list comes first.
    They are the first 10 entries of the ranking of all the locations (of all
    the resource groups) of the list. *)
Theorem top_mappings_are_the_first_ten_of_the_ranking
    (self : AzureResourceTypeAnalyzer) (resources : list Resource) :
  ∃ locations groups,
    oget (lit "top_locations") (analyze_resource_types self resources)
      = Some (VCounts locations) ∧
    oget (lit "top_resource_groups") (analyze_resource_types self resources)
      = Some (VCounts groups) ∧
    top_of 10 (r_location <$> resources) locations ∧
    top_of 10 (r_resource_group <$> resources) groups.
Proof.
  exists (take 10 (sorted_desc (Counter (r_location <$> resources)))),
         (take 10 (sorted_desc (Counter (r_resource_group <$> resources)))).
  split_and!; try apply take_sorted_Counter_top.
  - destruct resources as [|resource resources]; [done|].
    by rewrite analyze_nonempty.
  - destruct resources as [|resource resources]; [done|].
    by rewrite analyze_nonempty.
Qed.

(** Eleven locations met once each: the eleventh is left out. *)
Example top_locations_of_eleven :
  let resource location :=
    {| r_type := lit "t"; r_name := lit "n"; r_location := lit location;
       r_resource_group := lit "rg"; r_subscription_id := lit "s" |} in
  oget (lit "top_locations")
       (analyze_resource_types (init None)
          (resource <$> ["a"; "b"; "c"; "b"; "d"; "e"; "f"; "g"; "h"; "i";
                         "j"; "k"; "k"]%string))
    = Some (VCounts [ (lit "b", 2); (lit "k", 2); (lit "a", 1); (lit "c", 1);
                      (lit "d", 1); (lit "e", 1); (lit "f", 1); (lit "g", 1);
                      (lit "h", 1); (lit "i", 1) ]).
Proof. by vm_compute. Qed.

(** The report on an analysis that has the six keys. *)
Lemma report_lines_analysis_of (float_str : float_expr → str)
    total types locations groups distribution scanned :
  report_lines float_str
    (analysis_of (VInt total) (VTypes types) (VCounts locations)
                 (VCounts groups) (VCounts distribution) (VStrs scanned)) =
  Some (
    [ repeat_char "=" 80;
      lit "AZURE RESOURCE TYPE ANALYSIS REPORT";
      lit "TARGET SUBSCRIPTIONS: " ++ join (lit ", ") scanned;
      repeat_char "=" 80;
      lit "Total Resources: " ++ str_of_nat total;
      lit "Unique Resource Types: " ++ str_of_nat (length types);
      [] ] ++
    match distribution with
    | [] => []
    | _ :: _ =>
        [ lit "SUBSCRIPTION DISTRIBUTION:"; repeat_char "-" 30 ] ++
        (count_line <$> distribution) ++ [ [] ]
    end ++
    [ lit "RESOURCE TYPES BY COUNT:"; repeat_char "-" 50 ] ++
    (types ≫= type_lines float_str) ++
    match locations with
    | [] => []
    | _ :: _ =>
        [ lit (String "010" "") ++ repeat_char "=" 50;
          lit "TOP LOCATIONS:"; repeat_char "-" 20 ] ++
        (count_line <$> locations)
    end ++
    match groups with
    | [] => []
    | _ :: _ =>
        [ lit (String "010" "") ++ repeat_char "=" 50;
          lit "TOP RESOURCE GROUPS:"; repeat_char "-" 22 ] ++
        (count_line <$> groups)
    end).
Proof. reflexivity. Qed.

(** The scenario of the specification: three virtual machines and a storage
    account. *)
Definition scenario_resources : list Resource :=
  (λ type,
     {| r_type := lit type; r_name := lit "n"; r_location := lit "westeurope";
        r_resource_group := lit "rg1"; r_subscription_id := lit "id-1" |}) <$>
  [ "Microsoft.Storage/storageAccounts"; "Microsoft.Compute/virtualMachines";
    "Microsoft.Compute/virtualMachines"; "Microsoft.Compute/virtualMachines" ]%string.





(** [main] saves an analysis as soon as one resource is listed. *)
Example main_saves_an_analysis :
  let remote :=
    {| subscriptions_list :=
         Some [ {| display_name := lit "SLProd"; subscription_id := lit "id-1";
                   state := lit "Enabled" |} ];
       resources_list := λ subscription_id,
         Some [ {| res_type := lit "Microsoft.Web/sites"; res_name := lit "site";
                   res_location := lit "westeurope"; res_id := lit "/a/b" |} ] |} in
  ∃ analysis, main remote = Some analysis ∧
              oget (lit "total_resources") analysis = Some (VInt 1) ∧
              oget (lit "top_resource_groups") analysis
                = Some (VCounts [(lit "Unknown", 1)]).
Proof. eexists. by vm_compute. Qed.

End AggregatorFacts.

(** * Further properties *)

(** ** The row filter: diagnostics, failures and the expected file format *)

Module FilterExtras.
Import PyFacts FilterUserGroups FilterFacts.

Lemma for_each_app {S A} (body : S → A → S * option exn) (l1 l2 : list A) (s : S) :
  for_each body (l1 ++ l2) s =
    match for_each body l1 s with
    | (s', None) => for_each body l2 s'
    | (s', Some e) => (s', Some e)
    end.
Proof.
  revert s. induction l1 as [|a l1 IH]; intros s; simpl; [done|].
  destruct (body s a) as [s' [e|]]; [done|]. apply IH.
Qed.

Lemma filter_rows_printed (rows : list Row) :
  printed (filter_rows rows) = excluded_prints (read_loop rows).1.
Proof.
  unfold filter_rows. destruct (read_loop rows) as [st [e|]]; [done|].
  simpl. destruct (filtered_data st) as [|row kept]; [done|].
  by destruct (writerows _ _) as [file [e|]].
Qed.

Lemma filter_not_all {A} (P : A → Prop) `{∀ x, Decision (P x)} (l : list A) :
  Forall (λ x, ¬ P x) l → filter P l = [].
Proof.
  induction 1 as [|x l Hx Hl IH]; [done|]. by rewrite filter_cons_False.
Qed.

Lemma excluded_not_clean (row : Row) :
  should_exclude (lstrip [BOM] (text_of (lit "Name") row)) = true → ¬ clean row.
Proof. intros Hex Hclean%should_exclude_false. congruence. Qed.

(** A row with the two fields [Name] and [Id]. *)
Definition name_id_row (name id : string) : Row :=
  {| fields := [(lit "Name", Some (lit name)); (lit "Id", Some (lit id))];
     rest := None |}.

Lemma writerows_stops (before after : list Row) (bad : Row)
    (file : list (list str)) :
  Forall name_id_only before → ¬ name_id_only bad →
  writerows (before ++ bad :: after) file =
    (file ++ (written_record <$> before), Some ValueError).
Proof.
  intros Hbefore Hbad. revert file.
  induction Hbefore as [|row before Hrow Hbefore IH]; intros file; simpl.
  - unfold dict_to_list. rewrite bool_decide_false by done.
    by rewrite app_nil_r.
  - rewrite (dict_to_list_name_id _ Hrow), IH. by rewrite <- app_assoc.
Qed.

(** X1. On rows whose [Name] is a text, the run counts every row, counts the
    excluded ones, and prints one [Excluded: ...] line per excluded row, in
    the order of the input, with the name as it was matched (its leading
    byte-order marks dropped). Kept and excluded rows add up to the total. *)
Theorem excluded_rows_are_counted_and_reported (rows : list Row) :
  Forall has_name_text rows →
  ∃ st, read_loop rows = (st, None) ∧
        total_count st = length rows ∧
        excluded_count st = length (filter (λ row, ¬ clean row) rows) ∧
        excluded_count st + length (filtered_data st) = total_count st ∧
        excluded_prints st = excluded_line <$> filter (λ row, ¬ clean row) rows ∧
        printed (filter_rows rows) = excluded_prints st.
Proof.
  intros Hrows. eexists. split; [by apply read_loop_text|]. simpl.
  split_and!; [done | done | apply length_filter_split | done |].
  by rewrite filter_rows_printed, read_loop_text.
Qed.

Lemma excluded_rows_are_counted_and_reported_witness :
  let rows := DictReader scenario_records in
  Forall has_name_text rows ∧
  printed (filter_rows rows) = excluded_line <$> filter (λ row, ¬ clean row) rows.
Proof.
  intros rows.
  assert (Forall has_name_text rows) as Hrows
    by (repeat constructor; by vm_compute).
  split; [exact Hrows|].
  destruct (excluded_rows_are_counted_and_reported rows Hrows)
    as (st & _ & _ & _ & _ & Hprints & Hprinted).
  by rewrite Hprinted.
Defined.

(** X2. When every row is excluded (and when there is no row at all) the
    output file is not opened, and the run still returns [True]. *)
Theorem nothing_kept_nothing_written (rows : list Row) :
  Forall has_name_text rows →
  Forall (λ row, ¬ clean row) rows →
  filter_rows rows =
    {| returned := true; output_file := None;
       printed := excluded_line <$> rows |}.
Proof.
  intros Hrows Hnone. unfold filter_rows. rewrite (read_loop_text _ Hrows).
  simpl. rewrite (filter_not_all clean) by done.
  by rewrite (filter_all (λ row, ¬ clean row)).
Qed.

Lemma nothing_kept_nothing_written_witness :
  let rows := [name_id_row "App-DEV-01" "1"; name_id_row "Portal-UAT" "2"] in
  Forall has_name_text rows ∧ Forall (λ row, ¬ clean row) rows ∧
  output_file (filter_rows rows) = None ∧ returned (filter_rows rows) = true.
Proof.
  intros rows.
  assert (Forall has_name_text rows) as Hrows
    by (repeat constructor; by vm_compute).
  assert (Forall (λ row, ¬ clean row) rows) as Hnone
    by (repeat constructor; apply excluded_not_clean; by vm_compute).
  split_and!; [exact Hrows | exact Hnone | |];
    by rewrite (nothing_kept_nothing_written rows Hrows Hnone).
Defined.

(** X3. A row whose [Name] is [None] stops the run where it stands: the run
    returns [False], the output file is not opened, whatever rows would have
    been kept, and the only trace is the [Excluded: ...] lines of the rows
    read before it. *)
Theorem name_none_stops_the_run (before after : list Row) (bad : Row) :
  Forall has_name_text before → ¬ has_name_text bad →
  filter_rows (before ++ bad :: after) =
    {| returned := false; output_file := None;
       printed := excluded_line <$> filter (λ row, ¬ clean row) before |}.
Proof.
  intros Hbefore Hbad. unfold filter_rows, read_loop.
  rewrite for_each_app, (for_each_loop_body _ _ Hbefore). simpl.
  unfold loop_body. by rewrite (stripped_name_None _ Hbad).
Qed.

Lemma name_none_stops_the_run_witness :
  let before := [name_id_row "App-DEV-01" "1"; name_id_row "App-PROD-01" "2"] in
  let bad := {| fields := [(lit "Id", Some (lit "42")); (lit "Name", None)];
                rest := None |} in
  Forall has_name_text before ∧ ¬ has_name_text bad ∧
  returned (filter_rows (before ++ [bad])) = false ∧
  output_file (filter_rows (before ++ [bad])) = None.
Proof.
  intros before bad.
  assert (Forall has_name_text before) as Hbefore
    by (repeat constructor; by vm_compute).
  assert (¬ has_name_text bad) as Hbad by (by intros []).
  split_and!; [exact Hbefore | exact Hbad | |];
    by rewrite (name_none_stops_the_run before [] bad Hbefore Hbad).
Defined.

(** X4. A kept row with a key that the writer does not know (a third column,
    or fields beyond the header) stops the write with [ValueError]: the run
    returns [False] and the output file is left with the header and the
    records of the kept rows that come before this one. *)
Theorem unknown_column_stops_the_write (rows before after : list Row) (bad : Row) :
  Forall has_name_text rows →
  filter clean rows = before ++ bad :: after →
  Forall name_id_only before → ¬ name_id_only bad →
  filter_rows rows =
    {| returned := false;
       output_file := Some (fieldnames :: (written_record <$> before));
       printed := excluded_line <$> filter (λ row, ¬ clean row) rows |}.
Proof.
  intros Hrows Hkept Hbefore Hbad. unfold filter_rows.
  rewrite (read_loop_text _ Hrows). simpl. rewrite Hkept.
  rewrite (writerows_stops _ _ _ _ Hbefore Hbad).
  by destruct before.
Qed.

Lemma unknown_column_stops_the_write_witness :
  let first := name_id_row "App-PROD-01" "1" in
  let bad := {| fields := [(lit "Name", Some (lit "App-PROD-02"));
                           (lit "Id", Some (lit "2"));
                           (lit "Note", Some (lit "x"))];
                rest := None |} in
  let rows := [first; name_id_row "App-DEV-01" "3"; bad] in
  filter clean rows = [first] ++ bad :: [] ∧
  output_file (filter_rows rows) = Some [fieldnames; written_record first].
Proof.
  intros first bad rows.
  assert (Forall has_name_text rows) as Hrows
    by (repeat constructor; by vm_compute).
  assert (filter clean rows = [first] ++ bad :: []) as Hkept by by vm_compute.
  assert (Forall name_id_only [first]) as Hfirst
    by (repeat constructor).
  assert (¬ name_id_only bad) as Hbad.
  { intros [Hkeys _]. apply Forall_cons in Hkeys as [_ Hkeys].
    apply Forall_cons in Hkeys as [_ Hkeys].
    apply Forall_cons in Hkeys as [Hnote _]. unfold fieldnames in Hnote.
    repeat (apply elem_of_cons in Hnote as [Hnote|Hnote];
            [by vm_compute in Hnote|]).
    by apply elem_of_nil in Hnote. }
  split; [exact Hkept|].
  by rewrite (unknown_column_stops_the_write rows [first] [] bad
                Hrows Hkept Hfirst Hbad).
Defined.

Lemma oget_foldl_oset {K V X} `{EqDecision K} (f : X → K) (g : X → V)
    (l : list X) (acc : list (K * V)) (k : K) :
  k ∉ f <$> l →
  oget k (foldl (λ d x, oset (f x) (g x) d) acc l) = oget k acc.
Proof.
  revert acc. induction l as [|x l IH]; intros acc Hk; simpl; [done|].
  apply not_elem_of_cons in Hk as [Hx Hl].
  rewrite IH by done. rewrite oget_oset. by rewrite decide_False.
Qed.

(** With [Name] as first column, and nowhere else in the header, every
    non-empty record gets its first field as [Name]. *)
Lemma make_row_name_first (tail record : list str) :
  lit "Name" ∉ tail → record ≠ [] →
  oget (lit "Name") (fields (make_row (lit "Name" :: tail) record)) =
    Some (head record).
Proof.
  intros Htail Hrecord. destruct record as [|field record]; [done|].
  assert (oget (lit "Name")
            (dict_of (zip (lit "Name" :: tail) (Some <$> field :: record)))
          = Some (Some field)) as Hd.
  { unfold dict_of. cbn [fmap list_fmap zip zip_with foldl].
    rewrite (oget_foldl_oset fst snd).
    - rewrite oget_oset. by rewrite decide_True.
    - intros ([k v] & Heq & Hin)%list_elem_of_fmap. simpl in Heq. subst k.
      apply elem_of_zip_l in Hin. done. }
  unfold make_row. case_bool_decide; [done|].
  cbn [fields]. rewrite (oget_foldl_oset id (λ _, None)); [done|].
  rewrite list_fmap_id. cbn [length drop].
  intros Hin. apply Htail. by eapply subseteq_drop.
Qed.

(** X5. When [Name] is the first column of the header and no other column
    has this name, the reading loop never raises, whatever the records are:
    too short, too long or empty. *)
Theorem name_first_column_never_aborts (tail : list str) (data : list (list str)) :
  lit "Name" ∉ tail →
  (read_loop (DictReader ((lit "Name" :: tail) :: data))).2 = None.
Proof.
  intros Htail. apply read_loop_ends_normally_iff.
  unfold DictReader. apply Forall_fmap, Forall_forall.
  intros record [Hne _]%list_elem_of_filter.
  unfold has_name_text; simpl.
  rewrite (make_row_name_first _ _ Htail Hne). by destruct record.
Qed.

Lemma name_first_column_never_aborts_witness :
  (lit "Name" ∉ [lit "Id"; lit "Owner"]) ∧
  (read_loop (DictReader [ [lit "Name"; lit "Id"; lit "Owner"];
                           [lit "App-PROD-01"]; [];
                           [lit "App-DEV-01"; lit "2"; lit "me"; lit "more"] ])).2
    = None.
Proof.
  assert (lit "Name" ∉ [lit "Id"; lit "Owner"]) as Htail.
  { intros Hin.
    repeat (apply elem_of_cons in Hin as [Hin|Hin]; [by vm_compute in Hin|]).
    by apply elem_of_nil in Hin. }
  split; [exact Htail|].
  exact (name_first_column_never_aborts _ _ Htail).
Defined.

(** *** The file format the script expects: the header [Name,Id] *)

Definition record_name (record : list str) : str := default [] (head record).

Definition record_id (record : list str) : str := default [] (record !! 1).

(** No exclusion string occurs in the first field of the record, its leading
    byte-order marks dropped. *)
Definition clean_record (record : list str) : Prop :=
  Forall (λ exclude_str,
            ¬ substring exclude_str (lstrip [BOM] (record_name record)))
         exclusion_strings.

#[export] Instance clean_record_dec (record : list str) :
  Decision (clean_record record).
Proof. unfold clean_record. apply _. Defined.

Lemma make_row_name_id (record : list str) :
  record ≠ [] → length record ≤ 2 →
  let row := make_row fieldnames record in
  has_name_text row ∧ name_id_only row ∧
  text_of (lit "Name") row = record_name record ∧
  written_record row = [record_name record; record_id record].
Proof.
  intros Hne Hlen.
  destruct record as [|name [|id [|more record]]]; [done | | | simpl in Hlen; lia].
  - split_and!; [by vm_compute | | done..].
    split; [|done]. repeat constructor.
  - split_and!; [by vm_compute | | done..].
    split; [|done]. repeat constructor.
Qed.

Lemma filter_make_row (present : list (list str)) :
  Forall (λ record, record ≠ [] ∧ length record ≤ 2) present →
  filter clean (make_row fieldnames <$> present) =
    make_row fieldnames <$> filter clean_record present ∧
  filter (λ row, ¬ clean row) (make_row fieldnames <$> present) =
    make_row fieldnames <$> filter (λ record, ¬ clean_record record) present.
Proof.
  induction 1 as [|record present [Hne Hlen] Hpresent [IH1 IH2]]; [done|].
  destruct (make_row_name_id record Hne Hlen) as (_ & _ & Hname & _).
  assert (clean (make_row fieldnames record) ↔ clean_record record) as Hiff
    by (unfold clean, clean_record; by rewrite Hname).
  rewrite !fmap_cons. destruct (decide (clean_record record)) as [Hc|Hc].
  - rewrite (filter_cons_True clean), (filter_cons_True clean_record) by tauto.
    rewrite !filter_cons_False by tauto. by rewrite IH1, IH2.
  - rewrite (filter_cons_False clean), (filter_cons_False clean_record) by tauto.
    rewrite !filter_cons_True by tauto. by rewrite IH1, IH2.
Qed.

(** X6. On a file with the header [Name,Id] whose records have at most two
    fields, the run always returns [True]. Its output file holds the header
    and, in their order, the non-empty records whose name is clean, a missing
    [Id] being written as the empty string; the file is not written when
    there is no such record. One [Excluded: ...] line is printed per other
    non-empty record. *)
Theorem name_id_file_is_filtered (data : list (list str)) :
  Forall (λ record, length record ≤ 2) data →
  let present := filter (λ record, record ≠ []) data in
  filter_production_groups (Some (fieldnames :: data)) =
    {| returned := true;
       output_file :=
         match filter clean_record present with
         | [] => None
         | kept =>
             Some (fieldnames ::
                   ((λ record, [record_name record; record_id record]) <$> kept))
         end;
       printed :=
         (λ record, lit "Excluded: " ++ lstrip [BOM] (record_name record)) <$>
         filter (λ record, ¬ clean_record record) present |}.
Proof.
  intros Hdata present.
  assert (Forall (λ record, record ≠ [] ∧ length record ≤ 2) present) as Hpresent.
  { apply Forall_forall. intros record [Hne Hin]%list_elem_of_filter.
    rewrite Forall_forall in Hdata. auto. }
  destruct (filter_make_row present Hpresent) as [Hkept Hexcluded].
  assert (Forall (λ row, has_name_text row ∧ name_id_only row)
            (make_row fieldnames <$> present)) as Hrows.
  { apply Forall_fmap. eapply Forall_impl; [exact Hpresent|].
    intros record [Hne Hlen]. by destruct (make_row_name_id record Hne Hlen) as (? & ? & _). }
  unfold filter_production_groups, DictReader. fold present.
  unfold filter_rows.
  rewrite read_loop_text by (eapply Forall_impl; [exact Hrows | by intros ? [? _]]).
  simpl. rewrite Hkept, Hexcluded.
  assert (Forall (λ record, record ≠ [] ∧ length record ≤ 2)
            (filter clean_record present)) as Hk
    by by apply Forall_filter_sub.
  assert (Forall (λ record, record ≠ [] ∧ length record ≤ 2)
            (filter (λ record, ¬ clean_record record) present)) as Hx
    by by apply Forall_filter_sub.
  rewrite writerows_name_id.
  2:{ apply Forall_fmap. eapply Forall_impl; [exact Hk|]. intros r [Hne Hlen].
      by destruct (make_row_name_id r Hne Hlen) as (_ & ? & _). }
  assert (written_record <$> (make_row fieldnames <$> filter clean_record present)
          = (λ record, [record_name record; record_id record]) <$>
            filter clean_record present) as ->.
  { rewrite <- list_fmap_compose. apply Forall_fmap_ext_1.
    eapply Forall_impl; [exact Hk|]. intros r [Hne Hlen].
    by destruct (make_row_name_id r Hne Hlen) as (_ & _ & _ & ?). }
  assert (excluded_line <$>
            (make_row fieldnames <$>
             filter (λ record, ¬ clean_record record) present)
          = (λ record, lit "Excluded: " ++ lstrip [BOM] (record_name record)) <$>
            filter (λ record, ¬ clean_record record) present) as ->.
  { rewrite <- list_fmap_compose. apply Forall_fmap_ext_1.
    eapply Forall_impl; [exact Hx|]. intros r [Hne Hlen].
    destruct (make_row_name_id r Hne Hlen) as (_ & _ & Hname & _).
    unfold excluded_line; simpl. by rewrite Hname. }
  by destruct (filter clean_record present).
Qed.

Lemma name_id_file_is_filtered_witness :
  let data := [ [lit "App-DEV-01"; lit "1"]; []; [lit "App-PROD-01"];
                [lit "Svc-PROD"; lit "3"] ] in
  Forall (λ record, length record ≤ 2) data ∧
  output_file (filter_production_groups (Some (fieldnames :: data))) =
    Some [ fieldnames; [lit "App-PROD-01"; []]; [lit "Svc-PROD"; lit "3"] ].
Proof.
  intros data.
  assert (Forall (λ record, length record ≤ 2) data) as Hdata
    by (repeat constructor).
  split; [exact Hdata|].
  rewrite (name_id_file_is_filtered data Hdata). by vm_compute.
Defined.

(** *** The exclusion predicate *)

Lemma substring_cons_notin (c : char) (sub s : str) :
  c ∉ sub → substring sub (c :: s) ↔ substring sub s.
Proof.
  intros Hc. split.
  - intros ([|c' pre] & post & Heq).
    + destruct sub as [|c' sub]; [by exists [], s|].
      injection Heq as -> _. destruct Hc. by left.
    + injection Heq as -> ->. by exists pre, post.
  - intros (pre & post & ->). by exists (c :: pre), post.
Qed.

Lemma substring_trans (sub s t : str) :
  substring sub s → substring s t → substring sub t.
Proof.
  intros (pre & post & ->) (pre' & post' & ->).
  exists (pre' ++ pre), (post ++ post'). by rewrite <- !app_assoc.
Qed.

Lemma should_exclude_true (name : str) :
  should_exclude name = true ↔
  ∃ exclude_str, exclude_str ∈ exclusion_strings ∧ substring exclude_str name.
Proof.
  unfold should_exclude. rewrite existsb_exists. split.
  - intros (e & He%list_elem_of_In & Hin%str_in_spec). by exists e.
  - intros (e & He%list_elem_of_In & Hin%str_in_spec). by exists e.
Qed.

Lemma exclusion_strings_have_no_BOM :
  Forall (λ exclude_str, BOM ∉ exclude_str) exclusion_strings.
Proof.
  repeat constructor; intros Hin;
    repeat (apply elem_of_cons in Hin as [Hin|Hin]; [by vm_compute in Hin|]);
    by apply elem_of_nil in Hin.
Qed.

(** X7. Dropping the leading byte-order marks never changes the verdict: no
    exclusion string holds a byte-order mark, so a name is excluded exactly
    when the name as read is. [lstrip] only changes the line that is printed. *)
Theorem bom_strip_does_not_change_the_verdict (name : str) :
  should_exclude (lstrip [BOM] name) = should_exclude name.
Proof.
  induction name as [|c name IH]; [done|].
  simpl. case_bool_decide as Hc; [|done].
  apply list_elem_of_singleton in Hc as ->. rewrite IH.
  apply eq_true_iff_eq. rewrite !should_exclude_true.
  pose proof exclusion_strings_have_no_BOM as Hbom.
  rewrite Forall_forall in Hbom.
  split; intros (e & He & Hsub); exists e; (split; [done|]);
    by apply (substring_cons_notin BOM e name (Hbom e He)).
Qed.

(** X8. The match is on substrings, not on words: a name in which an excluded
    name occurs is excluded too, whatever is put before or after it. *)
Theorem exclusion_extends_to_longer_names (name longer : str) :
  substring name longer →
  should_exclude name = true → should_exclude longer = true.
Proof.
  intros Hsub (e & He & Hin)%should_exclude_true.
  apply should_exclude_true. exists e. split; [done|].
  by eapply substring_trans.
Qed.

Lemma exclusion_extends_to_longer_names_witness :
  substring (lit "UAT") (lit "Portal-UAT-02") ∧
  should_exclude (lit "UAT") = true ∧
  should_exclude (lit "Portal-UAT-02") = true.
Proof.
  assert (substring (lit "UAT") (lit "Portal-UAT-02")) as Hsub
    by (by exists (lit "Portal-"), (lit "-02")).
  assert (should_exclude (lit "UAT") = true) as Hex by by vm_compute.
  split_and!; [exact Hsub | exact Hex |].
  exact (exclusion_extends_to_longer_names _ _ Hsub Hex).
Defined.

End FilterExtras.

(** ** The resolver and the lister: what is scanned *)

Module ListerExtras.
Import PyFacts ListResourceTypes ResolverFacts.

(** Closes a decidable goal on concrete data by evaluating its decision. *)
Ltac by_evaluation := apply (bool_decide_eq_true_1 _); by vm_compute.

Lemma extend_all (get : str → list Resource) (subscriptions : list str)
    (all_resources : list Resource) :
  foldl (λ all_resources subscription_id, all_resources ++ get subscription_id)
        all_resources subscriptions
  = all_resources ++ (subscriptions ≫= get).
Proof.
  revert all_resources.
  induction subscriptions as [|sid subscriptions IH]; intros all_resources; simpl.
  - by rewrite app_nil_r.
  - by rewrite IH, <- app_assoc.
Qed.

Lemma get_all_resources_bind (self : AzureResourceTypeAnalyzer) (remote : Remote) :
  get_all_resources self remote =
    get_subscriptions self remote ≫= get_resources_from_subscription remote.
Proof.
  unfold get_all_resources.
  destruct (get_subscriptions self remote) as [|sid subscriptions] eqn:E; [done|].
  by rewrite extend_all.
Qed.

Lemma get_subscriptions_omap (self : AzureResourceTypeAnalyzer) (remote : Remote)
    (listing : list Subscription) :
  subscriptions_list remote = Some listing →
  get_subscriptions self remote =
    omap (λ target, all_subscriptions listing !! target) (target_subscriptions self).
Proof.
  intros Hlisting. unfold get_subscriptions. rewrite Hlisting.
  apply find_targets_omap.
Qed.

(** X9. Every resource of the scan is one that the remote listed for a
    subscription the resolver returned: it is tagged with the ID of an enabled
    subscription that one of the targets designates, it keeps the type, the
    name and the location it was listed with, and its resource group is the
    one read from its identifier. *)
Theorem scanned_resources_come_from_resolved_subscriptions
    (self : AzureResourceTypeAnalyzer) (remote : Remote) (resource : Resource) :
  resource ∈ get_all_resources self remote →
  r_subscription_id resource ∈ get_subscriptions self remote ∧
  (∃ subscriptions target,
     subscriptions_list remote = Some subscriptions ∧
     target ∈ target_subscriptions self ∧
     matches subscriptions target (r_subscription_id resource)) ∧
  (∃ listing listed,
     resources_list remote (r_subscription_id resource) = Some listing ∧
     listed ∈ listing ∧
     r_type resource = res_type listed ∧
     r_name resource = res_name listed ∧
     r_location resource = res_location listed ∧
     r_resource_group resource = resource_group_of (res_id listed)).
Proof.
  rewrite get_all_resources_bind.
  intros (sid & Hres & Hsid)%list_elem_of_bind.
  unfold get_resources_from_subscription in Hres.
  destruct (resources_list remote sid) as [listing|] eqn:Hlisting;
    [|by apply elem_of_nil in Hres].
  apply list_elem_of_fmap in Hres as (listed & -> & Hlisted). simpl.
  split_and!; [done | | by exists listing, listed].
  destruct (subscriptions_list remote) as [subscriptions|] eqn:Hsubs.
  - rewrite (get_subscriptions_omap _ _ _ Hsubs) in Hsid.
    apply list_elem_of_omap in Hsid as (target & Htarget & Hlookup).
    exists subscriptions, target. split_and!; [done..|].
    pose proof (all_subscriptions_lookup subscriptions target) as Hmatch.
    by rewrite Hlookup in Hmatch.
  - unfold get_subscriptions in Hsid. rewrite Hsubs in Hsid.
    by apply elem_of_nil in Hsid.
Qed.

(** A tenant with an enabled and a disabled subscription of one site each. *)
Definition small_tenant : Remote :=
  {| subscriptions_list :=
       Some [ {| display_name := lit "Alpha"; subscription_id := lit "id-1";
                 state := lit "Enabled" |};
              {| display_name := lit "Beta"; subscription_id := lit "id-2";
                 state := lit "Disabled" |} ];
     resources_list := λ subscription_id,
       Some [ {| res_type := lit "Microsoft.Web/sites"; res_name := lit "site";
                 res_location := lit "westeurope";
                 res_id := lit "/subscriptions/s/resourceGroups/rg1/providers/Microsoft.Web/sites/site" |} ] |}.

Definition small_tenant_site : Resource :=
  {| r_type := lit "Microsoft.Web/sites"; r_name := lit "site";
     r_location := lit "westeurope"; r_resource_group := lit "rg1";
     r_subscription_id := lit "id-1" |}.

Lemma scanned_resources_come_from_resolved_subscriptions_witness :
  let self := init (Some [lit "Alpha"; lit "Beta"]) in
  small_tenant_site ∈ get_all_resources self small_tenant ∧
  r_subscription_id small_tenant_site ∈ get_subscriptions self small_tenant.
Proof.
  intros self.
  assert (small_tenant_site ∈ get_all_resources self small_tenant) as Hin
    by (vm_compute; by left).
  split; [exact Hin|].
  exact (proj1 (scanned_resources_come_from_resolved_subscriptions _ _ _ Hin)).
Defined.

(** X10. The scan is the concatenation, in the order of the resolved
    subscriptions, of what each of them lists. A subscription whose listing
    raises contributes nothing and does not stop the scan of the others. *)
Theorem scan_is_the_concatenation_of_the_listings
    (self : AzureResourceTypeAnalyzer) (remote : Remote) :
  get_all_resources self remote =
    get_subscriptions self remote ≫= get_resources_from_subscription remote ∧
  ∀ before failed after,
    get_subscriptions self remote = before ++ failed :: after →
    resources_list remote failed = None →
    get_all_resources self remote =
      (before ≫= get_resources_from_subscription remote) ++
      (after ≫= get_resources_from_subscription remote).
Proof.
  split; [apply get_all_resources_bind|].
  intros before failed after Hsubs Hfailed.
  rewrite get_all_resources_bind, Hsubs, bind_app, bind_cons.
  unfold get_resources_from_subscription at 2. by rewrite Hfailed.
Qed.

(** X11. Each target is resolved on its own: the result for a list of targets
    put after another is the two results put one after the other. So a target
    given twice, or by its name and by its ID, is returned twice, and there
    are never more IDs than targets. *)
Theorem targets_are_resolved_one_by_one (targets1 targets2 : list str)
    (remote : Remote) :
  get_subscriptions {| target_subscriptions := targets1 ++ targets2 |} remote =
    get_subscriptions {| target_subscriptions := targets1 |} remote ++
    get_subscriptions {| target_subscriptions := targets2 |} remote ∧
  length (get_subscriptions {| target_subscriptions := targets1 |} remote)
    ≤ length targets1.
Proof.
  unfold get_subscriptions.
  destruct (subscriptions_list remote) as [listing|]; simpl; [|split; [done|lia]].
  rewrite !find_targets_omap. split; [apply omap_app|].
  generalize (λ target : str, all_subscriptions listing !! target) as resolve.
  intros resolve. induction targets1 as [|t targets1 IH]; [done|].
  change (omap resolve (t :: targets1))
    with (match resolve t with
          | Some sub_id => sub_id :: omap resolve targets1
          | None => omap resolve targets1
          end).
  destruct (resolve t); simpl; lia.
Qed.

Example target_by_name_and_by_id :
  get_subscriptions (init (Some [lit "Alpha"; lit "id-1"])) small_tenant
    = [lit "id-1"; lit "id-1"] ∧
  length (get_all_resources (init (Some [lit "Alpha"; lit "id-1"])) small_tenant)
    = 2.
Proof. by vm_compute. Qed.

(** X12. The resource group is read by position. In an identifier
    [/a/b/c/group] or [/a/b/c/group/...] it is [group] whatever [a], [b] and
    [c] are: for [/subscriptions/S/resourceGroups/G/...] it is [G], and for an
    identifier outside any resource group, [/subscriptions/S/providers/P/...],
    it is [P]. *)
Theorem resource_group_is_read_by_position (a b c group tail : str) :
  slash ∉ a → slash ∉ b → slash ∉ c → slash ∉ group →
  tail = [] ∨ head tail = Some slash →
  resource_group_of
    (slash :: a ++ slash :: b ++ slash :: c ++ slash :: group ++ tail) = group.
Proof.
  intros Ha Hb Hc Hgroup Htail. rewrite resource_group_of_lookup.
  cbn [split]. rewrite bool_decide_true by done.
  rewrite !split_app_sep by done.
  destruct Htail as [->|Htail].
  - rewrite app_nil_r, split_sep_free_seg by done. done.
  - destruct tail as [|c' tail]; [done|]. injection Htail as ->.
    by rewrite split_app_sep.
Qed.

Lemma resource_group_is_read_by_position_witness :
  resource_group_of
    (lit "/subscriptions/S/resourceGroups/G/providers/Microsoft.Web/sites/n")
    = lit "G" ∧
  resource_group_of
    (lit "/subscriptions/S/providers/Microsoft.Authorization/roleAssignments/n")
    = lit "Microsoft.Authorization".
Proof.
  assert (slash ∉ lit "subscriptions") as H1 by by_evaluation.
  assert (slash ∉ lit "S") as H2 by by_evaluation.
  assert (slash ∉ lit "resourceGroups") as H3 by by_evaluation.
  assert (slash ∉ lit "G") as H4 by by_evaluation.
  assert (slash ∉ lit "providers") as H5 by by_evaluation.
  assert (slash ∉ lit "Microsoft.Authorization") as H6 by by_evaluation.
  split.
  - exact (resource_group_is_read_by_position
             _ _ _ _ (lit "/providers/Microsoft.Web/sites/n")
             H1 H2 H3 H4 (or_intror eq_refl)).
  - exact (resource_group_is_read_by_position
             _ _ _ _ (lit "/roleAssignments/n")
             H1 H2 H5 H6 (or_intror eq_refl)).
Defined.

End ListerExtras.

(** ** The aggregator: totals, tallies and what the top-N mappings keep *)

Module AggregatorExtras.
Import PyFacts ListResourceTypes ResolverFacts AggregatorFacts.

Lemma sum_oset (k : str) (v : nat) (d : list (str * nat)) :
  sum_list_with snd (oset k v d) + default 0 (oget k d) =
    sum_list_with snd d + v.
Proof.
  induction d as [|[k' v'] d IH]; simpl; [lia|].
  case_decide; simpl; lia.
Qed.

Lemma Counter_sum (elems : list str) :
  sum_list_with snd (Counter elems) = length elems.
Proof.
  induction elems as [|x elems IH] using rev_ind; [done|].
  rewrite Counter_snoc, length_app. simpl.
  pose proof (sum_oset x (S (default 0 (oget x (Counter elems)))) (Counter elems)).
  lia.
Qed.

Lemma sum_take_le {A} (f : A → nat) (n : nat) (l : list A) :
  sum_list_with f (take n l) ≤ sum_list_with f l.
Proof.
  rewrite <- (take_drop n l) at 2. rewrite sum_list_with_app. lia.
Qed.

Lemma sum_list_with_compose {A B} (f : B → nat) (g : A → B) (l : list A) :
  sum_list_with f (g <$> l) = sum_list_with (f ∘ g) l.
Proof. induction l as [|x l IH]; csimpl; [done|]. by rewrite IH. Qed.

Lemma occurrences_pos (k : str) (elems : list str) :
  k ∈ elems → 0 < occurrences k elems.
Proof.
  intros Hk. unfold occurrences.
  induction elems as [|x elems IH]; [by apply elem_of_nil in Hk|].
  destruct (decide (x = k)) as [->|Hx].
  - rewrite filter_cons_True by done. simpl. lia.
  - rewrite filter_cons_False by done. apply IH.
    by apply elem_of_cons in Hk as [?|?].
Qed.

(** X13. The counts add up. For a non-empty resource list [total_resources]
    is the number of resources, the counts of [resource_types] sum to it, and
    so do those of [subscription_distribution]; the counts of [top_locations]
    and of [top_resource_groups], which may leave entries out, sum to at most
    this number. *)
Theorem counts_add_up_to_the_total (self : AzureResourceTypeAnalyzer)
    (resources : list Resource) :
  resources ≠ [] →
  let analysis := analyze_resource_types self resources in
  ∃ types locations groups distribution,
    oget (lit "total_resources") analysis = Some (VInt (length resources)) ∧
    oget (lit "resource_types") analysis = Some (VTypes types) ∧
    oget (lit "top_locations") analysis = Some (VCounts locations) ∧
    oget (lit "top_resource_groups") analysis = Some (VCounts groups) ∧
    oget (lit "subscription_distribution") analysis = Some (VCounts distribution) ∧
    sum_list_with (λ kv, count kv.2) types = length resources ∧
    sum_list_with snd distribution = length resources ∧
    sum_list_with snd locations ≤ length resources ∧
    sum_list_with snd groups ≤ length resources.
Proof.
  intros Hne analysis. unfold analysis. rewrite (analyze_nonempty _ _ Hne).
  do 4 eexists. split_and!; [done..| | | |].
  - rewrite sum_list_with_compose.
    change (sum_list_with snd (sorted_desc (Counter (r_type <$> resources)))
            = length resources).
    by rewrite sorted_desc_perm, Counter_sum, length_fmap.
  - by rewrite Counter_sum, length_fmap.
  - etransitivity; [apply sum_take_le|].
    by rewrite sorted_desc_perm, Counter_sum, length_fmap.
  - etransitivity; [apply sum_take_le|].
    by rewrite sorted_desc_perm, Counter_sum, length_fmap.
Qed.

Lemma counts_add_up_to_the_total_witness :
  scenario_resources ≠ [] ∧
  oget (lit "total_resources")
       (analyze_resource_types (init None) scenario_resources)
    = Some (VInt 4).
Proof.
  assert (scenario_resources ≠ []) as Hne by done.
  split; [exact Hne|].
  destruct (counts_add_up_to_the_total (init None) _ Hne)
    as (types & locations & groups & distribution & Htotal & _).
  exact Htotal.
Defined.

(** X14. [subscription_distribution] is the whole tally of the subscription
    IDs of the resources: one entry per ID, with the number of its resources,
    none left out, in the order in which the IDs were first met (it is not
    sorted by count). *)
Theorem subscription_distribution_is_the_whole_tally
    (self : AzureResourceTypeAnalyzer) (resources : list Resource) :
  resources ≠ [] →
  ∃ distribution,
    oget (lit "subscription_distribution")
         (analyze_resource_types self resources) = Some (VCounts distribution) ∧
    NoDup distribution.*1 ∧
    (∀ k c, (k, c) ∈ distribution ↔
            k ∈ r_subscription_id <$> resources ∧
            c = occurrences k (r_subscription_id <$> resources)) ∧
    (∀ i j k1 k2,
       i < j → distribution.*1 !! i = Some k1 → distribution.*1 !! j = Some k2 →
       met_before (r_subscription_id <$> resources) k1 k2).
Proof.
  intros Hne. rewrite (analyze_nonempty _ _ Hne).
  eexists. split_and!; [done | apply Counter_NoDup | apply Counter_elem |].
  intros i j k1 k2 Hij Hi Hj. apply Counter_key_order. by exists i, j.
Qed.

Lemma subscription_distribution_is_the_whole_tally_witness :
  scenario_resources ≠ [] ∧
  ∃ distribution,
    oget (lit "subscription_distribution")
         (analyze_resource_types (init None) scenario_resources)
      = Some (VCounts distribution) ∧
    NoDup distribution.*1.
Proof.
  assert (scenario_resources ≠ []) as Hne by done.
  split; [exact Hne|].
  destruct (subscription_distribution_is_the_whole_tally (init None) _ Hne)
    as (distribution & Hget & Hnd & _).
  by exists distribution.
Defined.

(** An element is in the mapping with its number of occurrences, or the
    mapping is full and each of its entries outranks the element: it has a
    higher count, or the same count and was met first. *)
Definition kept_or_outranked (n : nat) (elems : list str)
    (d : list (str * nat)) (k : str) : Prop :=
  (k, occurrences k elems) ∈ d ∨
  (length d = n ∧
   Forall (λ x, occurrences k elems ≤ x.2 ∧
                (x.2 = occurrences k elems → met_before elems x.1 k)) d).

Lemma take_sorted_Counter_keeps_the_highest (n : nat) (elems : list str) (k : str) :
  k ∈ elems →
  kept_or_outranked n elems (take n (sorted_desc (Counter elems))) k.
Proof.
  intros Hk.
  assert ((k, occurrences k elems) ∈ sorted_desc (Counter elems)) as Hin
    by (rewrite sorted_desc_perm; by apply Counter_elem).
  pose proof (sorted_desc_stable (Counter elems)) as Hsorted.
  rewrite <- (take_drop n (sorted_desc (Counter elems))) in Hin, Hsorted.
  apply elem_of_app in Hin as [Hin|Hin]; [by left|]. right. split.
  - apply length_take_le.
    destruct (decide (n ≤ length (sorted_desc (Counter elems)))); [done|].
    rewrite drop_ge in Hin by lia. by apply elem_of_nil in Hin.
  - apply Forall_forall. intros x Hx.
    pose proof (StronglySorted_app_1_elem_of _ _ _ _ _ Hsorted Hx Hin)
      as [Hlt|[Heq Hkey]]; simpl in *.
    + split; lia.
    + split; [lia|]. intros _. by apply Counter_key_order.
Qed.

(** X15. The top-N mappings keep the highest counts. The location of every
    resource is in [top_locations] with its count, unless the mapping already
    has 10 entries that all outrank it; the same holds of its resource group
    and [top_resource_groups]. A mapping with fewer than 10 entries has left
    nothing out. *)
Theorem top_mappings_keep_the_highest_counts
    (self : AzureResourceTypeAnalyzer) (resources : list Resource)
    (resource : Resource) :
  resource ∈ resources →
  ∃ locations groups,
    oget (lit "top_locations") (analyze_resource_types self resources)
      = Some (VCounts locations) ∧
    oget (lit "top_resource_groups") (analyze_resource_types self resources)
      = Some (VCounts groups) ∧
    kept_or_outranked 10 (r_location <$> resources) locations
                      (r_location resource) ∧
    kept_or_outranked 10 (r_resource_group <$> resources) groups
                      (r_resource_group resource).
Proof.
  intros Hin.
  assert (resources ≠ []) as Hne by (intros ->; by apply elem_of_nil in Hin).
  rewrite (analyze_nonempty _ _ Hne). do 2 eexists.
  split_and!; [done | done | |];
    apply take_sorted_Counter_keeps_the_highest, list_elem_of_fmap;
    by exists resource.
Qed.

Lemma top_mappings_keep_the_highest_counts_witness :
  let resource :=
    {| r_type := lit "Microsoft.Storage/storageAccounts"; r_name := lit "n";
       r_location := lit "westeurope"; r_resource_group := lit "rg1";
       r_subscription_id := lit "id-1" |} in
  resource ∈ scenario_resources ∧
  ∃ locations,
    oget (lit "top_locations")
         (analyze_resource_types (init None) scenario_resources)
      = Some (VCounts locations) ∧
    kept_or_outranked 10 (r_location <$> scenario_resources) locations
                      (r_location resource).
Proof.
  intros resource.
  assert (resource ∈ scenario_resources) as Hin by by left.
  split; [exact Hin|].
  destruct (top_mappings_keep_the_highest_counts (init None) _ _ Hin)
    as (locations & groups & Hlocations & _ & Hkept & _).
  by exists locations.
Defined.

(** X16. Each entry of [resource_types] carries the number of resources of
    its type, which is at least 1, the description of the type in the table,
    or ["No description available"] for a type the table does not have, and
    the percentage computed from this count and the number of resources. *)
Theorem resource_type_details (self : AzureResourceTypeAnalyzer)
    (resources : list Resource) :
  resources ≠ [] →
  ∃ types,
    oget (lit "resource_types") (analyze_resource_types self resources)
      = Some (VTypes types) ∧
    Forall (λ kv,
              count kv.2 = occurrences kv.1 (r_type <$> resources) ∧
              0 < count kv.2 ∧
              description kv.2 =
                default (lit "No description available")
                        (oget kv.1 get_resource_type_descriptions) ∧
              percentage kv.2 = round_percent (count kv.2) (length resources))
           types.
Proof.
  intros Hne. rewrite (analyze_nonempty _ _ Hne).
  eexists. split; [done|]. apply Forall_fmap, Forall_forall.
  intros [k c] Hkc. rewrite sorted_desc_perm in Hkc.
  apply Counter_elem in Hkc as [Hk ->]. simpl.
  split_and!; [done | by apply occurrences_pos | done..].
Qed.

Lemma resource_type_details_witness :
  scenario_resources ≠ [] ∧
  ∃ types,
    oget (lit "resource_types")
         (analyze_resource_types (init None) scenario_resources)
      = Some (VTypes types) ∧
    Forall (λ kv, 0 < count kv.2) types.
Proof.
  assert (scenario_resources ≠ []) as Hne by done.
  split; [exact Hne|].
  destruct (resource_type_details (init None) _ Hne) as (types & Hget & Hall).
  exists types. split; [exact Hget|].
  eapply Forall_impl; [exact Hall|]. by intros kv (_ & ? & _).
Defined.

End AggregatorExtras.

(** ** The report and the entry point *)

Module ReportExtras.
Import PyFacts ListResourceTypes ResolverFacts AggregatorFacts ListerExtras.

Lemma Counter_nonempty (elems : list str) : elems ≠ [] → Counter elems ≠ [].
Proof.
  intros Hne Hc. destruct elems as [|x elems]; [done|].
  assert (x ∈ (Counter (x :: elems)).*1) as Hx by (apply Counter_keys_2; by left).
  rewrite Hc in Hx. by apply elem_of_nil in Hx.
Qed.

Lemma top_nonempty (n : nat) (elems : list str) :
  elems ≠ [] → take (S n) (sorted_desc (Counter elems)) ≠ [].
Proof.
  intros Hne%Counter_nonempty.
  pose proof (sorted_desc_perm (Counter elems)) as Hperm.
  destruct (sorted_desc (Counter elems)) as [|x l]; [|done].
  by apply Permutation_nil_l in Hperm.
Qed.

(** X17. The report is defined on every analysis that
    [analyze_resource_types] returns: no subscript of [generate_report] meets
    a missing key, not even on the analysis of the empty list, which has no
    [subscription_distribution]. That report is the heading and the bare
    title of the resource types section; the report of a non-empty list has
    the three other sections as well. *)
Theorem report_is_defined_on_every_analysis (float_str : float_expr → str)
    (self : AzureResourceTypeAnalyzer) (resources : list Resource) :
  ∃ lines,
    report_lines float_str (analyze_resource_types self resources) = Some lines ∧
    generate_report float_str (analyze_resource_types self resources)
      = Some (join (lit (String "010" "")) lines) ∧
    (resources = [] →
     lines = [ repeat_char "=" 80;
               lit "AZURE RESOURCE TYPE ANALYSIS REPORT";
               lit "TARGET SUBSCRIPTIONS: " ++
                 join (lit ", ") (target_subscriptions self);
               repeat_char "=" 80;
               lit "Total Resources: 0";
               lit "Unique Resource Types: 0";
               [];
               lit "RESOURCE TYPES BY COUNT:";
               repeat_char "-" 50 ]) ∧
    (resources ≠ [] →
     lit "SUBSCRIPTION DISTRIBUTION:" ∈ lines ∧
     lit "TOP LOCATIONS:" ∈ lines ∧
     lit "TOP RESOURCE GROUPS:" ∈ lines).
Proof.
  destruct resources as [|resource resources].
  - eexists. split_and!; [reflexivity | reflexivity | done | done].
  - assert (resource :: resources ≠ []) as Hne by done.
    unfold generate_report. rewrite (analyze_nonempty _ _ Hne).
    rewrite report_lines_analysis_of.
    eexists. split_and!; [reflexivity | reflexivity | done |].
    intros _.
    assert (∀ f : Resource → str, f <$> resource :: resources ≠ []) as Hfmap
      by (intros f; by rewrite fmap_cons).
    pose proof (Counter_nonempty _ (Hfmap r_subscription_id)) as Hdist.
    pose proof (top_nonempty 9 _ (Hfmap r_location)) as Hloc.
    pose proof (top_nonempty 9 _ (Hfmap r_resource_group)) as Hrg.
    destruct (Counter (r_subscription_id <$> resource :: resources)); [done|].
    destruct (take 10 (sorted_desc (Counter (r_location <$> resource :: resources))));
      [done|].
    destruct (take 10 (sorted_desc (Counter (r_resource_group <$> resource :: resources))));
      [done|].
    split_and!.
    + apply elem_of_app. right. apply elem_of_app. left. by left.
    + do 4 (apply elem_of_app; right). apply elem_of_app. left.
      apply elem_of_app. left. right. by left.
    + do 5 (apply elem_of_app; right).
      apply elem_of_app. left. right. by left.
Qed.



(** X19. [main] saves an analysis exactly when the scan of its four targets
    has found a resource. It saves nothing when the listing of the
    subscriptions raises, and nothing when no target designates an enabled
    subscription. The analysis it saves counts the resources of the scan. *)
Theorem main_saves_the_analysis_of_a_non_empty_scan (remote : Remote) :
  let analyzer := init (Some main_target_subscriptions) in
  (main remote = None ↔ get_all_resources analyzer remote = []) ∧
  (subscriptions_list remote = None → main remote = None) ∧
  (∀ listing,
     subscriptions_list remote = Some listing →
     (∀ target sub_id, target ∈ main_target_subscriptions →
                       ¬ matches listing target sub_id) →
     main remote = None) ∧
  (∀ analysis,
     main remote = Some analysis →
     analysis = analyze_resource_types analyzer (get_all_resources analyzer remote) ∧
     0 < length (get_all_resources analyzer remote) ∧
     oget (lit "total_resources") analysis
       = Some (VInt (length (get_all_resources analyzer remote)))).
Proof.
  intros analyzer.
  assert (main remote = None ↔ get_all_resources analyzer remote = []) as Hnone.
  { unfold main. fold analyzer.
    by destruct (get_all_resources analyzer remote). }
  split_and!; [done | | |].
  - intros Hfail. apply Hnone. unfold get_all_resources, get_subscriptions.
    by rewrite Hfail.
  - intros listing Hlisting Hnomatch. apply Hnone.
    rewrite get_all_resources_bind, (get_subscriptions_omap _ _ _ Hlisting).
    enough (omap (λ target, all_subscriptions listing !! target)
                 (target_subscriptions analyzer) = []) as -> by done.
    unfold analyzer. simpl.
    pose proof (all_subscriptions_lookup listing) as Hlookup.
    assert (∀ target, target ∈ main_target_subscriptions →
                      all_subscriptions listing !! target = None) as Hall.
    { intros target Htarget. specialize (Hlookup target).
      destruct (all_subscriptions listing !! target) as [sub_id|]; [|done].
      by destruct (Hnomatch target sub_id Htarget). }
    unfold main_target_subscriptions in *.
    rewrite !fmap_cons in *. cbn [omap list_omap].
    by rewrite !Hall by (repeat constructor).
  - intros analysis. unfold main. fold analyzer.
    destruct (get_all_resources analyzer remote) as [|found all_found] eqn:E;
      [done|].
    intros Ha. apply (inj Some) in Ha. subst analysis.
    split_and!; [done | simpl; lia |].
    by rewrite analyze_nonempty.
Qed.

End ReportExtras.

(** * The percentages *)

(** ** Binary64 arithmetic: the error of a division, of a product and of
    [round] *)

Module Binary64Facts.
Import Binary64.

Lemma bpow_pos (e : Z) : (0 < bpow e)%R.
Proof. apply powerRZ_lt. lra. Qed.

Lemma bpow_add (a b : Z) : bpow (a + b) = (bpow a * bpow b)%R.
Proof. apply powerRZ_add. lra. Qed.

Lemma bpow_IZR (n : Z) : (0 <= n)%Z → bpow n = IZR (2 ^ n).
Proof.
  intros Hn. destruct n as [|p|p]; [done | | lia].
  unfold bpow. by rewrite <- Zpower_pos_powerRZ.
Qed.

Lemma bpow_le (a b : Z) : (a <= b)%Z → (bpow a <= bpow b)%R.
Proof.
  intros Hab. replace b with (a + (b - a))%Z by lia.
  rewrite bpow_add, (bpow_IZR (b - a)) by lia.
  assert (1 <= IZR (2 ^ (b - a)))%R as H1.
  { apply IZR_le. pose proof (Z.pow_pos_nonneg 2 (b - a)). lia. }
  pose proof (bpow_pos a). nra.
Qed.

Lemma bpow_lt_inv (a b : Z) : (bpow a < bpow b)%R → (a < b)%Z.
Proof.
  intros Hlt. destruct (Z_lt_le_dec a b) as [|Hle]; [done|].
  apply bpow_le in Hle. lra.
Qed.

Lemma F2R_shift (m e k : Z) : (0 <= k)%Z → F2R (m * 2 ^ k) e = F2R m (e + k).
Proof.
  intros Hk. unfold F2R. rewrite mult_IZR, bpow_add, (bpow_IZR k) by done. ring.
Qed.

Lemma F2R_le (m1 m2 e : Z) : (m1 <= m2)%Z → (F2R m1 e <= F2R m2 e)%R.
Proof.
  intros H%IZR_le. unfold F2R. pose proof (bpow_pos e). nra.
Qed.

Lemma F2R_succ (m e : Z) : F2R (m + 1) e = (F2R m e + bpow e)%R.
Proof. unfold F2R. rewrite plus_IZR. ring. Qed.

(** *** The number of binary digits *)

Lemma digits2_pos_bounds (p : positive) :
  (2 ^ (Zpos (digits2_pos p) - 1) <= Zpos p < 2 ^ Zpos (digits2_pos p))%Z.
Proof.
  induction p as [p IH|p IH|]; simpl digits2_pos.
  - rewrite Pos2Z.inj_succ.
    replace (Z.succ (Zpos (digits2_pos p)) - 1)%Z
      with (Z.succ (Zpos (digits2_pos p) - 1)) by lia.
    rewrite !Z.pow_succ_r by lia. lia.
  - rewrite Pos2Z.inj_succ.
    replace (Z.succ (Zpos (digits2_pos p)) - 1)%Z
      with (Z.succ (Zpos (digits2_pos p) - 1)) by lia.
    rewrite !Z.pow_succ_r by lia. lia.
  - done.
Qed.

Lemma Zdigits2_nonneg (m : Z) : (0 <= Zdigits2 m)%Z.
Proof. destruct m; simpl; lia. Qed.

Lemma Zdigits2_lt (m : Z) : (0 <= m)%Z → (m < 2 ^ Zdigits2 m)%Z.
Proof.
  destruct m as [|p|p]; [done | | lia]. intros _.
  apply digits2_pos_bounds.
Qed.

Lemma Zdigits2_ge (m : Z) : (0 < m)%Z → (2 ^ (Zdigits2 m - 1) <= m)%Z.
Proof.
  destruct m as [|p|p]; [lia | | lia]. intros _.
  apply digits2_pos_bounds.
Qed.

(** A number below [2 ^ k] has at most [k] digits. *)
Lemma Zdigits2_le (m k : Z) :
  (0 <= m)%Z → (0 <= k)%Z → (m < 2 ^ k)%Z → (Zdigits2 m <= k)%Z.
Proof.
  intros Hm Hk Hlt. destruct (Z.eq_dec m 0) as [->|Hm0]; [done|].
  pose proof (Zdigits2_ge m ltac:(lia)) as Hge.
  pose proof (Zdigits2_nonneg m).
  destruct (Z_lt_le_dec k (Zdigits2 m)) as [Hlt'|]; [|done].
  assert (2 ^ k <= 2 ^ (Zdigits2 m - 1))%Z by (apply Z.pow_le_mono_r; lia).
  lia.
Qed.

(** *** Shifting to the right *)

Lemma fexp_eq (e : Z) : fexp prec emax e = Z.max (e - 53) (-1074).
Proof. reflexivity. Qed.

Lemma shr_1_m (mrs : shr_record) :
  (0 <= shr_m mrs)%Z → shr_m (shr_1 mrs) = (shr_m mrs / 2)%Z.
Proof.
  destruct mrs as [m r s]. simpl. intros Hm.
  destruct m as [|[p|p|]|p]; simpl; try lia;
    first [ apply (Z.div_unique _ _ _ 1); lia
          | apply (Z.div_unique _ _ _ 0); lia ].
Qed.

Lemma pow2_xO (p : positive) : (2 ^ Zpos p~0 = 2 ^ Zpos p * 2 ^ Zpos p)%Z.
Proof.
  replace (Zpos p~0) with (Zpos p + Zpos p)%Z by lia.
  by rewrite Z.pow_add_r by lia.
Qed.

Lemma pow2_xI (p : positive) : (2 ^ Zpos p~1 = 2 * (2 ^ Zpos p * 2 ^ Zpos p))%Z.
Proof.
  replace (Zpos p~1) with (1 + (Zpos p + Zpos p))%Z by lia.
  by rewrite !Z.pow_add_r by lia.
Qed.

Lemma iter_shr_1_m (p : positive) (mrs : shr_record) :
  (0 <= shr_m mrs)%Z →
  shr_m (iter_pos shr_1 p mrs) = (shr_m mrs / 2 ^ Zpos p)%Z.
Proof.
  assert (∀ m, (0 <= shr_m m)%Z → (0 <= shr_m (shr_1 m))%Z) as Hnonneg.
  { intros m Hm. rewrite shr_1_m by done. apply Z.div_pos; lia. }
  revert mrs. induction p as [p IH|p IH|]; intros mrs Hm; simpl iter_pos.
  - assert (0 < 2 ^ Zpos p)%Z as Hp by (apply Z.pow_pos_nonneg; lia).
    rewrite IH; [rewrite IH; [rewrite shr_1_m by done|by apply Hnonneg]|].
    + rewrite !Z.div_div by lia. f_equal. rewrite pow2_xI. lia.
    + rewrite IH by (by apply Hnonneg).
      apply Z.div_pos; [by apply Hnonneg | lia].
  - assert (0 < 2 ^ Zpos p)%Z as Hp by (apply Z.pow_pos_nonneg; lia).
    rewrite IH; [rewrite IH by done|].
    + rewrite !Z.div_div by lia. f_equal. rewrite pow2_xO. lia.
    + rewrite IH by done. apply Z.div_pos; [done | lia].
  - rewrite shr_1_m by done. done.
Qed.

Lemma shr_m_of_loc (m : Z) (l : location) : shr_m (shr_record_of_loc m l) = m.
Proof. by destruct l as [|[]]. Qed.

(** [shr_fexp] moves the exponent up to [E] and divides the mantissa. *)
Lemma shr_fexp_spec (m e : Z) (l : location) :
  (0 <= m)%Z →
  let E := Z.max e (fexp prec emax (Zdigits2 m + e)) in
  ∃ mrs, shr_fexp prec emax m e l = (mrs, E) ∧
         shr_m mrs = (m / 2 ^ (E - e))%Z.
Proof.
  intros Hm E. unfold shr_fexp, shr.
  destruct (fexp prec emax (Zdigits2 m + e) - e)%Z as [|p|p] eqn:Hn.
  - eexists. split; [f_equal; lia|].
    rewrite shr_m_of_loc. replace (E - e)%Z with 0%Z by lia.
    by rewrite Z.div_1_r.
  - eexists. split; [f_equal; lia|].
    rewrite iter_shr_1_m by (by rewrite shr_m_of_loc).
    rewrite shr_m_of_loc. do 2 f_equal. lia.
  - eexists. split; [f_equal; lia|].
    rewrite shr_m_of_loc. replace (E - e)%Z with 0%Z by lia.
    by rewrite Z.div_1_r.
Qed.

(** *** Rounding to the format *)

Lemma round_nearest_even_bounds (m : Z) (l : location) :
  (m <= round_nearest_even m l <= m + 1)%Z.
Proof.
  destruct l as [|[]]; simpl; try lia. destruct (Z.even m); lia.
Qed.

(** A non-negative finite float, with a bound on its exponent. *)
Definition nonneg_below (E : Z) (f : spec_float) : Prop :=
  f = S754_zero false ∨ ∃ m e, f = S754_finite false m e ∧ (e <= E)%Z.

(** [binary_round_aux] on the mantissa [mx] at the exponent [ex] gives a
    float between the two multiples of [2 ^ E] around [mx * 2 ^ ex], [E]
    being the exponent the format has at this magnitude. *)
Lemma binary_round_aux_spec (mx ex : Z) (lx : location) :
  (0 <= mx)%Z →
  let E := Z.max ex (fexp prec emax (Zdigits2 mx + ex)) in
  (E + 1 <= emax - prec)%Z →
  let f := binary_round_aux prec emax false mx ex lx in
  nonneg_below (E + 1) f ∧
  (F2R (mx / 2 ^ (E - ex)) E <= SF2R f <= F2R (mx / 2 ^ (E - ex) + 1) E)%R.
Proof.
  intros Hmx E Hover f.
  destruct (shr_fexp_spec mx ex lx Hmx) as (mrs' & Heq1 & Hm'). fold E in Heq1, Hm'.
  set (k := (E - ex)%Z) in *.
  assert (0 <= k)%Z as Hk by (unfold k, E; lia).
  assert (0 < 2 ^ k)%Z as Hpow by (apply Z.pow_pos_nonneg; lia).
  set (m' := (mx / 2 ^ k)%Z) in *.
  assert (0 <= m')%Z as Hm'0 by (apply Z.div_pos; lia).
  assert (-1074 <= E)%Z as HEmin by (unfold E; rewrite fexp_eq; lia).
  assert (m' < 2 ^ 53)%Z as Hm'53.
  { apply Z.div_lt_upper_bound; [done|].
    pose proof (Zdigits2_lt mx Hmx) as Hd. pose proof (Zdigits2_nonneg mx).
    assert (Zdigits2 mx <= 53 + k)%Z by (unfold k, E; rewrite fexp_eq; lia).
    assert (2 ^ Zdigits2 mx <= 2 ^ (53 + k))%Z by (apply Z.pow_le_mono_r; lia).
    rewrite Z.pow_add_r in * by lia. lia. }
  set (m1 := round_nearest_even (shr_m mrs') (loc_of_shr_record mrs')).
  pose proof (round_nearest_even_bounds (shr_m mrs') (loc_of_shr_record mrs')) as Hm1.
  fold m1 in Hm1. rewrite Hm' in Hm1.
  assert (0 <= m1)%Z as Hm10 by lia.
  destruct (shr_fexp_spec m1 E loc_Exact Hm10) as (mrs'' & Heq2 & Hm'').
  assert (f = match shr_m mrs'' with
              | Z0 => S754_zero false
              | Zpos m =>
                  if (Z.max E (fexp prec emax (Zdigits2 m1 + E)) <=? emax - prec)%Z
                  then S754_finite false m (Z.max E (fexp prec emax (Zdigits2 m1 + E)))
                  else S754_infinity false
              | Zneg _ => S754_nan
              end) as Hf.
  { unfold f, binary_round_aux. rewrite Heq1. fold m1. by rewrite Heq2. }
  clearbody f. subst f. clear Heq1 Heq2.
  destruct (Z_lt_le_dec m1 (2 ^ 53)) as [Hlt|Hge].
  - assert (Zdigits2 m1 <= 53)%Z by (apply Zdigits2_le; lia).
    assert (Z.max E (fexp prec emax (Zdigits2 m1 + E)) = E) as HE2
      by (rewrite fexp_eq; lia).
    rewrite HE2 in *. rewrite Z.sub_diag, Z.div_1_r in Hm''. rewrite Hm''.
    destruct m1 as [|p1|p1]; [| |lia].
    + split; [by left|]. simpl. assert (m' = 0)%Z as -> by lia.
      rewrite F2R_succ. unfold F2R. pose proof (bpow_pos E). lra.
    + replace (E <=? emax - prec)%Z with true by (symmetry; apply Z.leb_le; lia).
      split; [right; exists p1, E; split; [done | lia]|].
      simpl. split; apply F2R_le; lia.
  - assert (m1 = 2 ^ 53)%Z as Hm1eq by lia.
    assert (Z.max E (fexp prec emax (Zdigits2 m1 + E)) = E + 1)%Z as HE2.
    { rewrite Hm1eq. change (Zdigits2 (2 ^ 53)) with 54%Z. rewrite fexp_eq. lia. }
    rewrite HE2 in *. replace (E + 1 - E)%Z with 1%Z in Hm'' by lia.
    rewrite Hm1eq in Hm''. change (2 ^ 53 / 2 ^ 1)%Z with (Zpos (2 ^ 52)) in Hm''.
    rewrite Hm''.
    replace (E + 1 <=? emax - prec)%Z with true by (symmetry; apply Z.leb_le; lia).
    split; [right; exists (2 ^ 52)%positive, (E + 1)%Z; split; [done | lia]|].
    simpl. rewrite <- (F2R_shift _ _ 1) by lia.
    change (Zpos (2 ^ 52) * 2 ^ 1)%Z with (2 ^ 53)%Z.
    split; apply F2R_le; lia.
Qed.

Lemma binary_round_aux_error (mx ex : Z) (lx : location) (v : R) :
  (0 <= mx)%Z →
  let E := Z.max ex (fexp prec emax (Zdigits2 mx + ex)) in
  (E + 1 <= emax - prec)%Z →
  (F2R mx ex <= v <= F2R (mx + 1) ex)%R →
  let f := binary_round_aux prec emax false mx ex lx in
  nonneg_below (E + 1) f ∧ (Rabs (SF2R f - v) <= bpow E)%R.
Proof.
  intros Hmx E Hover Hv f.
  destruct (binary_round_aux_spec mx ex lx Hmx Hover) as [Hf Hr].
  fold E f in Hf, Hr. split; [done|].
  set (k := (E - ex)%Z) in *.
  assert (0 <= k)%Z as Hk by (unfold k, E; lia).
  assert (0 < 2 ^ k)%Z as Hpow by (apply Z.pow_pos_nonneg; lia).
  set (m' := (mx / 2 ^ k)%Z) in *.
  pose proof (Z.mul_div_le mx (2 ^ k) Hpow) as Hlo.
  pose proof (Z.mul_succ_div_gt mx (2 ^ k) Hpow) as Hhi.
  fold m' in Hlo, Hhi.
  assert (F2R m' E <= F2R mx ex)%R as Hlo'.
  { replace E with (ex + k)%Z by (unfold k; lia).
    rewrite <- F2R_shift by done. apply F2R_le. lia. }
  assert (F2R (mx + 1) ex <= F2R (m' + 1) E)%R as Hhi'.
  { replace E with (ex + k)%Z by (unfold k; lia).
    rewrite <- F2R_shift by done. apply F2R_le. lia. }
  rewrite (F2R_succ m' E) in Hr, Hhi'. apply Rabs_le. lra.
Qed.

(** *** The operations of the percentage *)

Lemma SFdiv_core_spec (a b : positive) (M : Z) :
  (0 <= M)%Z → (Zpos a <= Zpos b * 2 ^ M)%Z →
  ∃ q e' l,
    SFdiv_core_binary prec emax (Zpos a) 0 (Zpos b) 0 = (q, e', l) ∧
    (0 <= q)%Z ∧ (-1074 <= e' <= M - 53)%Z ∧ (e' <= 0)%Z ∧
    (Zdigits2 q + e' <= M + 1)%Z ∧
    (Zpos b * q <= Zpos a * 2 ^ (- e') < Zpos b * (q + 1))%Z.
Proof.
  intros HM Hab. unfold SFdiv_core_binary.
  set (d1 := Zdigits2 (Zpos a)). set (d2 := Zdigits2 (Zpos b)).
  assert (d1 <= d2 + M)%Z as Hd.
  { pose proof (Zdigits2_ge (Zpos a) ltac:(done)) as Ha.
    pose proof (Zdigits2_lt (Zpos b) ltac:(done)) as Hb.
    pose proof (Zdigits2_nonneg (Zpos b)). fold d1 in Ha. fold d2 in Hb, H.
    destruct (Z_lt_le_dec (d2 + M) d1) as [Hlt|]; [|done].
    assert (2 ^ (d2 + M) <= 2 ^ (d1 - 1))%Z by (apply Z.pow_le_mono_r; lia).
    rewrite Z.pow_add_r in * by lia.
    assert (0 < 2 ^ M)%Z by (apply Z.pow_pos_nonneg; lia). nia. }
  rewrite !Z.add_0_r, Z.sub_diag.
  set (e' := Z.min (fexp prec emax (d1 - d2)) 0).
  assert (-1074 <= e' <= M - 53)%Z as He' by (unfold e'; rewrite fexp_eq; lia).
  assert (e' <= 0)%Z as He'0 by (unfold e'; lia).
  set (m' := match (0 - e')%Z with
             | Zpos _ => Z.shiftl (Zpos a) (0 - e')
             | Z0 => Zpos a
             | Zneg _ => 0%Z
             end).
  assert (m' = Zpos a * 2 ^ (- e'))%Z as Hm'.
  { unfold m'. destruct (0 - e')%Z as [|p|p] eqn:Hs.
    - replace (- e')%Z with 0%Z by lia. lia.
    - rewrite Z.shiftl_mul_pow2 by lia. do 2 f_equal. lia.
    - lia. }
  pose proof (Z_div_mod m' (Zpos b) ltac:(done)) as Hdiv.
  destruct (Z.div_eucl m' (Zpos b)) as [q r]. destruct Hdiv as [Hdiv Hr].
  assert (0 < 2 ^ (- e'))%Z as Hpow by (apply Z.pow_pos_nonneg; lia).
  assert (0 <= q)%Z as Hq by nia.
  exists q, e', (new_location (Zpos b) r). split_and!; try done; try lia.
  destruct (Z.eq_dec q 0) as [->|Hq0]; [simpl; lia|].
  assert (q < 2 ^ (M + - e' + 1))%Z as Hqlt.
  { rewrite !Z.pow_add_r by lia. change (2 ^ 1)%Z with 2%Z.
    assert (0 < 2 ^ M)%Z by (apply Z.pow_pos_nonneg; lia). nia. }
  pose proof (Zdigits2_le q (M + - e' + 1) Hq ltac:(lia) Hqlt). lia.
Qed.

Lemma bpow_opp (e : Z) : (bpow (- e) * bpow e = 1)%R.
Proof.
  rewrite <- bpow_add. replace (- e + e)%Z with 0%Z by lia. done.
Qed.

(** The quotient of two integers lies within one unit of the last place of
    the true quotient. *)
Lemma int_div_spec (a b : positive) (M : Z) :
  (0 <= M <= 900)%Z → (Zpos a <= Zpos b * 2 ^ M)%Z →
  let f := int_div (Zpos a) (Zpos b) in
  nonneg_below (M - 51) f ∧
  (Rabs (SF2R f - IZR (Zpos a) / IZR (Zpos b)) <= bpow (M - 52))%R.
Proof.
  intros HM Hab f.
  destruct (SFdiv_core_spec a b M ltac:(lia) Hab)
    as (q & e' & l & Hcore & Hq & He' & He'0 & Hdq & Hlo & Hhi).
  assert (f = binary_round_aux prec emax false q e' l) as Hf
    by (unfold f, int_div, of_int, SFdiv; by rewrite Hcore).
  set (E := Z.max e' (fexp prec emax (Zdigits2 q + e'))).
  assert (E <= M - 52)%Z as HE by (unfold E; rewrite fexp_eq; lia).
  set (v := (IZR (Zpos a) / IZR (Zpos b))%R).
  assert (F2R q e' <= v <= F2R (q + 1) e')%R as Hv.
  { assert (0 < IZR (Zpos b))%R as Hb by (apply IZR_lt; lia).
    assert (IZR (Zpos a) = v * IZR (Zpos b))%R as Ha by (unfold v; field; lra).
    apply IZR_le in Hlo. apply IZR_lt in Hhi.
    rewrite !mult_IZR, <- bpow_IZR in Hlo, Hhi by lia.
    rewrite plus_IZR in Hhi. rewrite Ha in Hlo, Hhi.
    pose proof (bpow_opp e') as Hone. pose proof (bpow_pos e') as Hpos.
    pose proof (bpow_pos (- e')) as Hpos'.
    unfold F2R. rewrite plus_IZR.
    set (P := bpow e') in *. set (S := bpow (- e')) in *.
    set (B := IZR (Zpos b)) in *. set (Q := IZR q) in *.
    split.
    - apply (Rmult_le_reg_r (B * S)); [nra|].
      replace (Q * P * (B * S))%R with (B * Q * (S * P))%R by ring.
      rewrite Hone. nra.
    - apply (Rmult_le_reg_r (B * S)); [nra|].
      replace ((Q + 1) * P * (B * S))%R with (B * (Q + 1) * (S * P))%R by ring.
      rewrite Hone. nra. }
  destruct (binary_round_aux_error q e' l v Hq ltac:(fold E; unfold emax, prec; lia) Hv)
    as [Hnn Herr].
  fold E in Hnn, Herr. rewrite <- Hf in Hnn, Herr. split.
  - destruct Hnn as [->|(m & e & -> & He)]; [by left|].
    right. exists m, e. split; [done | lia].
  - etransitivity; [exact Herr|]. by apply bpow_le.
Qed.

Lemma F2R_mul (m1 e1 m2 e2 : Z) :
  F2R (m1 * m2) (e1 + e2) = (F2R m1 e1 * F2R m2 e2)%R.
Proof. unfold F2R. rewrite mult_IZR, bpow_add. ring. Qed.

Lemma F2R_hundred : F2R 7036874417766400 (-46) = 100%R.
Proof.
  change 7036874417766400%Z with (100 * 2 ^ 46)%Z.
  rewrite F2R_shift by lia. unfold F2R. simpl. lra.
Qed.

Lemma bpow_F2R (e k : Z) : (0 <= k)%Z → bpow (e + k) = F2R (2 ^ k) e.
Proof.
  intros Hk. replace (2 ^ k)%Z with (1 * 2 ^ k)%Z by lia.
  rewrite F2R_shift by done. unfold F2R. lra.
Qed.

(** A mantissa whose value is below [2 ^ n] ends below the exponent [n]. *)
Lemma digits_below (m e n : Z) :
  (0 < m)%Z → (F2R m e < bpow n)%R → (Zdigits2 m + e <= n)%Z.
Proof.
  intros Hm Hlt.
  pose proof (Zdigits2_ge m Hm) as Hge.
  assert (1 <= Zdigits2 m)%Z as Hd1 by (destruct m; simpl in *; lia).
  apply (F2R_le _ _ e) in Hge.
  rewrite <- bpow_F2R in Hge by lia.
  assert (bpow (e + (Zdigits2 m - 1)) < bpow n)%R as Hb by lra.
  apply bpow_lt_inv in Hb. lia.
Qed.

Lemma bpow_8 : bpow 8 = 256%R.
Proof. rewrite bpow_IZR by lia. done. Qed.

Lemma SF2R_nonneg (E : Z) (f : spec_float) : nonneg_below E f → (0 <= SF2R f)%R.
Proof.
  intros [->|(m & e & -> & _)]; simpl; [lra|].
  unfold F2R. pose proof (bpow_pos e).
  assert (0 < IZR (Zpos m))%R by (apply IZR_lt; lia). nra.
Qed.

(** The product by [100.0] of a float that is at most 2. *)
Lemma mul_hundred_spec (x : spec_float) :
  nonneg_below 0 x → (SF2R x <= 2)%R →
  let f := SFmul prec emax x hundred in
  nonneg_below (-44) f ∧ (Rabs (SF2R f - 100 * SF2R x) <= bpow (-45))%R.
Proof.
  intros [->|(m & e & -> & He)] Hx f.
  - split; [by left|]. simpl. rewrite Rmult_0_r, Rminus_0_r, Rabs_R0.
    pose proof (bpow_pos (-45)). lra.
  - simpl in Hx.
    assert (f = binary_round_aux prec emax false
                  (Zpos m * 7036874417766400) (e + -46) loc_Exact) as Hf by done.
    set (mx := (Zpos m * 7036874417766400)%Z) in *.
    assert (F2R mx (e + -46) = 100 * F2R (Zpos m) e)%R as Hv
      by (unfold mx; rewrite F2R_mul, F2R_hundred; ring).
    assert (0 < mx)%Z as Hmx by (unfold mx; lia).
    assert (0 <= F2R (Zpos m) e)%R as Hx0
      by (apply (SF2R_nonneg e (S754_finite false m e)); right; by exists m, e).
    assert (Zdigits2 mx + (e + -46) <= 8)%Z as Hd
      by (apply digits_below; [done | rewrite Hv, bpow_8; lra]).
    set (E := Z.max (e + -46) (fexp prec emax (Zdigits2 mx + (e + -46)))).
    assert (E <= -45)%Z as HE by (unfold E; rewrite fexp_eq; lia).
    destruct (binary_round_aux_error mx (e + -46) loc_Exact (F2R mx (e + -46))
                ltac:(lia) ltac:(fold E; unfold emax, prec; lia))
      as [Hnn Herr].
    { split; [lra|]. apply F2R_le. lia. }
    fold E in Hnn, Herr. rewrite <- Hf, Hv in *. split.
    + destruct Hnn as [->|(m' & e' & -> & He')]; [by left|].
      right. exists m', e'. split; [done | lia].
    + cbn [SF2R]. etransitivity; [exact Herr|]. by apply bpow_le.
Qed.

Lemma F2R_nonneg_exp (m e : Z) : (0 <= e)%Z → F2R m e = IZR (m * 2 ^ e).
Proof.
  intros He. replace e with (0 + e)%Z at 1 by lia.
  rewrite <- F2R_shift by done. unfold F2R, bpow. simpl. ring.
Qed.

(** [hundredths] is within one half of a hundredth. *)
Lemma hundredths_spec (m : positive) (e : Z) :
  (0 <= hundredths m e)%Z ∧
  (Rabs (IZR (hundredths m e) - 100 * F2R (Zpos m) e) <= 1 / 2)%R.
Proof.
  unfold hundredths. destruct e as [|p|p].
  - split; [lia|]. rewrite (F2R_nonneg_exp _ 0) by lia.
    rewrite <- mult_IZR.
    replace (100 * (Zpos m * 2 ^ 0))%Z with (100 * Zpos m * 2 ^ 0)%Z by ring.
    rewrite Rminus_diag, Rabs_R0. lra.
  - assert (0 < 2 ^ Zpos p)%Z by (apply Z.pow_pos_nonneg; lia).
    split; [lia|]. rewrite (F2R_nonneg_exp _ (Zpos p)) by lia.
    rewrite <- mult_IZR.
    replace (100 * (Zpos m * 2 ^ Zpos p))%Z with (100 * Zpos m * 2 ^ Zpos p)%Z by ring.
    rewrite Rminus_diag, Rabs_R0. lra.
  - set (den := (2 ^ Zpos p)%Z).
    assert (0 < den)%Z as Hden by (apply Z.pow_pos_nonneg; lia).
    pose proof (Z.div_mod (100 * Zpos m) den ltac:(lia)) as Hdiv.
    pose proof (Z.mod_pos_bound (100 * Zpos m) den Hden) as Hr.
    set (q := (100 * Zpos m / den)%Z) in *.
    set (r := (100 * Zpos m mod den)%Z) in *.
    assert (0 <= q)%Z as Hq by (apply Z.div_pos; lia).
    assert (100 * F2R (Zpos m) (Zneg p) * IZR den = IZR den * IZR q + IZR r)%R as Hval.
    { rewrite <- mult_IZR, <- plus_IZR, <- Hdiv, mult_IZR. unfold F2R, den.
      rewrite <- (bpow_IZR (Zpos p)) by lia.
      change (Zneg p) with (- Zpos p)%Z.
      pose proof (bpow_opp (Zpos p)) as Hone.
      replace (100 * (IZR (Zpos m) * bpow (- Zpos p)) * bpow (Zpos p))%R
        with (100 * IZR (Zpos m) * (bpow (- Zpos p) * bpow (Zpos p)))%R by ring.
      rewrite Hone. ring. }
    assert (0 < IZR den)%R as HD by (apply IZR_lt; lia).
    assert (0 <= IZR r < IZR den)%R as HR
      by (split; [apply IZR_le | apply IZR_lt]; lia).
    set (x := (100 * F2R (Zpos m) (Zneg p))%R) in *.
    assert (x = IZR q + IZR r / IZR den)%R as Hx.
    { apply (Rmult_eq_reg_r (IZR den)); [|lra]. rewrite Hval. field. lra. }
    assert (0 <= IZR r / IZR den < 1)%R as Hfrac.
    { split; [apply Rmult_le_pos; [lra | left; by apply Rinv_0_lt_compat]|].
      apply (Rmult_lt_reg_r (IZR den)); [done|].
      replace (IZR r / IZR den * IZR den)%R with (IZR r) by (field; lra). lra. }
    destruct (Z.compare_spec (2 * r) den) as [Heq|Hlt|Hgt].
    + assert (IZR r / IZR den = 1 / 2)%R as Hhalf.
      { rewrite <- Heq, mult_IZR. field. apply not_0_IZR. lia. }
      destruct (Z.even q); (split; [lia|]); rewrite ?plus_IZR, Hx, Hhalf;
        apply Rabs_le; lra.
    + split; [lia|]. rewrite Hx.
      assert (IZR r / IZR den <= 1 / 2)%R.
      { apply (Rmult_le_reg_r (IZR den)); [done|].
        replace (IZR r / IZR den * IZR den)%R with (IZR r) by (field; lra).
        apply IZR_lt in Hlt. rewrite mult_IZR in Hlt. lra. }
      apply Rabs_le. lra.
    + split; [lia|]. rewrite plus_IZR, Hx.
      assert (1 / 2 <= IZR r / IZR den)%R.
      { apply (Rmult_le_reg_r (IZR den)); [done|].
        replace (IZR r / IZR den * IZR den)%R with (IZR r) by (field; lra).
        apply IZR_lt in Hgt. rewrite mult_IZR in Hgt. lra. }
      apply Rabs_le. lra.
Qed.

Lemma Rabs_le_inv (a b : R) : (Rabs a <= b)%R → (- b <= a <= b)%R.
Proof. unfold Rabs. destruct (Rcase_abs a); lra. Qed.

Lemma nonneg_below_mono (E E' : Z) (f : spec_float) :
  (E <= E')%Z → nonneg_below E f → nonneg_below E' f.
Proof.
  intros HE [->|(m & e & -> & He)]; [by left|].
  right. exists m, e. split; [done | lia].
Qed.

Lemma nonneg_below_finite (E : Z) (f : spec_float) :
  nonneg_below E f → is_finite f = true.
Proof. by intros [->|(m & e & -> & _)]. Qed.

Lemma bpow_m20 : bpow (-20) = (/ 1048576)%R.
Proof.
  apply (Rmult_eq_reg_r (bpow 20)); [|pose proof (bpow_pos 20); lra].
  etransitivity; [exact (bpow_opp 20)|].
  rewrite (bpow_IZR 20) by lia. change (2 ^ 20)%Z with 1048576%Z. field.
Qed.

(** [round(x, 2)] of a float that is at most 101. *)
Lemma round2_spec (x : spec_float) :
  nonneg_below 0 x → (SF2R x <= 101)%R →
  nonneg_below (-44) (round2 x) ∧
  (Rabs (SF2R (round2 x) - SF2R x) <= 1 / 200 + bpow (-45))%R.
Proof.
  pose proof (bpow_pos (-45)) as Hpos.
  intros [->|(m & e & -> & He)] Hx.
  - split; [by left|]. simpl. rewrite Rminus_diag, Rabs_R0. lra.
  - cbn [SF2R] in *. unfold round2.
    destruct (hundredths_spec m e) as [Hk0 Hk].
    apply Rabs_le_inv in Hk.
    destruct (hundredths m e) as [|k|k] eqn:Ek; [| |lia].
    + split; [by left|]. cbn [SF2R]. apply Rabs_le. lra.
    + assert (IZR (Zpos k) < 12800)%R as Hkb by lra.
      apply lt_IZR in Hkb.
      destruct (int_div_spec k 100 7 ltac:(lia) ltac:(lia)) as [Hnn Herr].
      unfold int_div, of_int in Hnn, Herr. split; [exact Hnn|].
      apply Rabs_le_inv in Herr. change (7 - 52)%Z with (-45)%Z in Herr.
      apply Rabs_le. lra.
Qed.

(** One percentage of [analyze_resource_types] is a finite float within one
    hundredth of the exact percentage. *)
Lemma percent_spec (c t : positive) :
  (Zpos c <= Zpos t)%Z →
  is_finite (percent (Zpos c) (Zpos t)) = true ∧
  (Rabs (SF2R (percent (Zpos c) (Zpos t)) - 100 * IZR (Zpos c) / IZR (Zpos t))
     <= 1 / 100)%R.
Proof.
  intros Hct. unfold percent.
  destruct (int_div_spec c t 0 ltac:(lia) ltac:(lia)) as [Hd Hderr].
  set (d := int_div (Zpos c) (Zpos t)) in *.
  change (0 - 52)%Z with (-52)%Z in Hderr. change (0 - 51)%Z with (-51)%Z in Hd.
  apply Rabs_le_inv in Hderr.
  pose proof (bpow_le (-52) (-20) ltac:(lia)) as H52.
  pose proof (bpow_le (-45) (-20) ltac:(lia)) as H45.
  pose proof (bpow_pos (-52)) as P52. pose proof (bpow_pos (-45)) as P45.
  rewrite bpow_m20 in H52, H45.
  assert (0 < IZR (Zpos c) / IZR (Zpos t) <= 1)%R as Hq.
  { assert (0 < IZR (Zpos c))%R by (apply IZR_lt; lia).
    assert (0 < IZR (Zpos t))%R by (apply IZR_lt; lia).
    assert (IZR (Zpos c) <= IZR (Zpos t))%R by (by apply IZR_le).
    split; [by apply Rdiv_lt_0_compat|].
    apply (Rmult_le_reg_r (IZR (Zpos t))); [done|].
    replace (IZR (Zpos c) / IZR (Zpos t) * IZR (Zpos t))%R
      with (IZR (Zpos c)) by (field; lra). lra. }
  destruct (mul_hundred_spec d) as [Hm Hmerr].
  { by apply (nonneg_below_mono (-51)). }
  { lra. }
  set (p := SFmul prec emax d hundred) in *.
  apply Rabs_le_inv in Hmerr.
  destruct (round2_spec p) as [Hr Hrerr].
  { by apply (nonneg_below_mono (-44)). }
  { lra. }
  apply Rabs_le_inv in Hrerr. split.
  - by apply (nonneg_below_finite (-44)).
  - apply Rabs_le.
    replace (100 * IZR (Zpos c) / IZR (Zpos t))%R
      with (100 * (IZR (Zpos c) / IZR (Zpos t)))%R by (unfold Rdiv; ring).
    lra.
Qed.

End Binary64Facts.

(** ** The percentages of the resource types *)

Module PercentageFacts.
Import PyFacts ListResourceTypes AggregatorFacts AggregatorExtras.
Import Binary64 Binary64Facts.

(** One percentage, for a count between 1 and the total. *)
Lemma percent_of_count (c t : nat) :
  0 < c ≤ t →
  is_finite (percent (Z.of_nat c) (Z.of_nat t)) = true ∧
  (Rabs (SF2R (percent (Z.of_nat c) (Z.of_nat t)) - 100 * INR c / INR t)
     <= 1 / 100)%R.
Proof.
  intros [Hc Hct]. destruct c as [|c]; [lia|]. destruct t as [|t]; [lia|].
  rewrite !INR_IZR_INZ.
  change (Z.of_nat (S c)) with (Zpos (Pos.of_succ_nat c)).
  change (Z.of_nat (S t)) with (Zpos (Pos.of_succ_nat t)).
  apply percent_spec. lia.
Qed.

(** The errors of the percentages add up: for counts between 1 and [t], the
    percentages sum to the exact percentage of the sum of the counts, up to one
    hundredth for each of them. *)
Lemma percent_sum_error (t : nat) (counts : list nat) :
  Forall (λ c, 0 < c ≤ t) counts →
  (Rabs (Rsum ((λ c, SF2R (percent (Z.of_nat c) (Z.of_nat t))) <$> counts)
         - 100 * INR (sum_list counts) / INR t)
     <= 1 / 100 * INR (length counts))%R.
Proof.
  induction 1 as [|c counts Hc _ IH].
  - simpl. unfold Rdiv. rewrite Rmult_0_r, Rmult_0_l, Rminus_diag, Rabs_R0. lra.
  - assert (0 < INR t)%R as Ht by (apply lt_0_INR; lia).
    destruct (percent_of_count c t Hc) as [_ Herr].
    apply Rabs_le_inv in Herr, IH. apply Rabs_le.
    rewrite fmap_cons.
    change (length (c :: counts)) with (S (length counts)).
    change (sum_list (c :: counts)) with (c + sum_list counts).
    rewrite plus_INR, S_INR. cbn [Rsum foldr]. fold (Rsum).
    replace (100 * (INR c + INR (sum_list counts)) / INR t)%R
      with (100 * INR c / INR t + 100 * INR (sum_list counts) / INR t)%R
      by (field; lra).
    unfold Rsum in *. lra.
Qed.

(** [Counter] has one entry for each distinct element. *)
Lemma Counter_length (elems : list str) :
  length (Counter elems) = length (remove_dups elems).
Proof.
  rewrite <- (length_fmap fst). apply Permutation_length, NoDup_Permutation.
  - apply Counter_NoDup.
  - apply NoDup_remove_dups.
  - intros k. rewrite elem_of_remove_dups. split.
    + apply Counter_keys_1.
    + apply Counter_keys_2.
Qed.

(** The counts of a tally lie between 1 and the number of elements. *)
Lemma Counter_counts (elems : list str) :
  Forall (λ c, 0 < c ≤ length elems) (Counter elems).*2.
Proof.
  apply Forall_fmap, Forall_forall. intros [k c] [Hk ->]%Counter_elem. split.
  - by apply occurrences_pos.
  - unfold occurrences. apply length_filter.
Qed.

(** C4. For a non-empty resource list every percentage of [resource_types]
    evaluates, in binary64 arithmetic, to a finite float, and the sum of
    these floats, taken as real numbers, is within 0.01 times the number of
    distinct resource types of 100. *)
Theorem percentages_sum_to_one_hundred
    (self : AzureResourceTypeAnalyzer) (resources : list Resource) :
  resources ≠ [] →
  ∃ types values,
    oget (lit "resource_types") (analyze_resource_types self resources)
      = Some (VTypes types) ∧
    Forall2 (λ kv v, float_value (percentage kv.2) = Some v) types values ∧
    Forall (λ v, is_finite v = true) values ∧
    (Rabs (Rsum (SF2R <$> values) - 100)
       <= 1 / 100 * INR (length (remove_dups (r_type <$> resources))))%R.
Proof.
  intros Hne. rewrite (analyze_nonempty _ _ Hne).
  set (t := length resources).
  assert (0 < t) as Ht by (unfold t; destruct resources; [done | simpl; lia]).
  set (items := sorted_desc (Counter (r_type <$> resources))).
  assert (items ≡ₚ Counter (r_type <$> resources)) as Hperm
    by apply sorted_desc_perm.
  assert (Forall (λ c, 0 < c ≤ t) items.*2) as Hcounts.
  { rewrite Hperm. unfold t. rewrite <- (length_fmap r_type).
    apply Counter_counts. }
  exists ((λ item, (item.1, details_of t item)) <$> items),
         ((λ c, percent (Z.of_nat c) (Z.of_nat t)) <$> items.*2).
  split_and!.
  - done.
  - apply Forall2_fmap, Forall2_fmap_r, Forall_Forall2_diag, Forall_forall.
    intros [k c] _. cbn. by destruct t; [lia|].
  - apply Forall_fmap. eapply Forall_impl; [exact Hcounts|].
    intros c Hc. by apply percent_of_count.
  - pose proof (percent_sum_error t items.*2 Hcounts) as Herr.
    rewrite <- list_fmap_compose.
    assert (sum_list items.*2 = t) as Hsum.
    { rewrite Hperm. unfold t. rewrite <- (length_fmap r_type resources).
      rewrite <- Counter_sum. generalize (Counter (r_type <$> resources)).
      intros l. induction l as [|x l IH]; csimpl; [done|]. by rewrite IH. }
    assert (length items.*2 = length (remove_dups (r_type <$> resources)))
      as Hlen by (by rewrite Hperm, length_fmap, Counter_length).
    rewrite Hsum, Hlen in Herr.
    replace (100 * INR t / INR t)%R with 100%R in Herr; [exact Herr|].
    assert (0 < INR t)%R by (by apply lt_0_INR). field. lra.
Qed.

Lemma percentages_sum_to_one_hundred_witness :
  scenario_resources ≠ [] ∧
  ∃ types values,
    oget (lit "resource_types")
         (analyze_resource_types (init None) scenario_resources)
      = Some (VTypes types) ∧
    Forall2 (λ kv v, float_value (percentage kv.2) = Some v) types values ∧
    Forall (λ v, is_finite v = true) values ∧
    (Rabs (Rsum (SF2R <$> values) - 100)
       <= 1 / 100 * INR (length (remove_dups (r_type <$> scenario_resources))))%R.
Proof.
  assert (scenario_resources ≠ []) as Hne by done.
  split; [exact Hne|].
  exact (percentages_sum_to_one_hundred (init None) scenario_resources Hne).
Defined.

(** The percentages of the scenario: 75.0 and 25.0. *)
Example scenario_percentages :
  float_value (round_percent 3 4) = Some (S754_finite false 5277655813324800 (-46)) ∧
  float_value (round_percent 1 4) = Some (S754_finite false 7036874417766400 (-48)) ∧
  F2R 5277655813324800 (-46) = 75%R ∧
  F2R 7036874417766400 (-48) = 25%R.
Proof.
  split_and!; [by vm_compute | by vm_compute | |].
  - change 5277655813324800%Z with (75 * 2 ^ 46)%Z.
    rewrite F2R_shift by lia. unfold F2R, bpow. simpl. lra.
  - change 7036874417766400%Z with (25 * 2 ^ 48)%Z.
    rewrite F2R_shift by lia. unfold F2R, bpow. simpl. lra.
Qed.

End PercentageFacts.
